(** * Osdag bridge module: the deck-girder geometry solver and the
    custom-parameter query of [frontend/src/pages/BridgeModule.tsx]

  The component keeps its data in React state cells and edits them from
  event handlers.  The embedding below threads those cells through a
  record: every handler is a function from the state before the event to
  the state after it.  TypeScript's [number] is the IEEE-754 binary64
  type, so numbers are modelled by [spec_float] at precision 53 with the
  arithmetic of [SpecFloat], which computes inside Rocq. *)

From Stdlib Require Import ZArith Bool Ascii String List Lia.
From Stdlib Require Import QArith Qabs Qminmax Qpower Lqa.
From Stdlib Require Import Floats.SpecFloat.
Import ListNotations.

Open Scope Z_scope.

(* ================================================================== *)
(** ** ECMAScript numbers *)
(* ================================================================== *)

Module JS.

Definition prec : Z := 53.
Definition emax : Z := 1024.

(** A [number].  The values a program can hold are the canonical ones,
    [valid_binary prec emax x = true]. *)
Definition number : Type := spec_float.

Definition NaN : number := S754_nan.
Definition Infinity : number := S754_infinity false.

Definition is_nan (x : number) : bool :=
  match x with S754_nan => true | _ => false end.

Definition is_finite (x : number) : bool :=
  match x with S754_zero _ | S754_finite _ _ _ => true | _ => false end.

(** The number nearest to an integer (exact below 2^53). *)
Definition of_Z (n : Z) : number := binary_normalize prec emax n 0 false.

(** The number nearest to the fraction [n / d], with the sign [neg];
    this is what reading a decimal numeral yields. *)
Definition of_ratio (neg : bool) (n : Z) (d : positive) : number :=
  match n with
  | Zpos p => SFdiv prec emax (S754_finite neg p 0) (S754_finite false d 0)
  | _ => S754_zero neg
  end.

(** The operators [+], [-], [*] and [/]. *)
Definition add (x y : number) : number := SFadd prec emax x y.
Definition sub (x y : number) : number := SFsub prec emax x y.
Definition mul (x y : number) : number := SFmul prec emax x y.
Definition div (x y : number) : number := SFdiv prec emax x y.

(** The relational operators; each is [false] when an operand is NaN. *)
Definition lt (x y : number) : bool := SFltb x y.
Definition le (x y : number) : bool := SFleb x y.
Definition gt (x y : number) : bool := SFltb y x.
Definition ge (x y : number) : bool := SFleb y x.

(** [floor (v + 1/2)] and [floor v] for the exact value
    [v = m * 2^e] of a finite number with [e < 0]. *)
Definition round_half_up (m e : Z) : Z :=
  (2 * m + 2 ^ (- e)) / 2 ^ (- e + 1).

Definition floor_exact (m e : Z) : Z := m / 2 ^ (- e).

(** [Math.round]: the nearest integer, ties towards +Infinity; a result
    of zero keeps the sign of the argument. *)
Definition Math_round (x : number) : number :=
  match x with
  | S754_finite s m e =>
      if 0 <=? e then x
      else
        let n := round_half_up (cond_Zopp s (Zpos m)) e in
        if n =? 0 then S754_zero s else of_Z n
  | _ => x
  end.

(** [Math.floor]. *)
Definition Math_floor (x : number) : number :=
  match x with
  | S754_finite s m e =>
      if 0 <=? e then x
      else
        let n := floor_exact (cond_Zopp s (Zpos m)) e in
        if n =? 0 then S754_zero false else of_Z n
  | _ => x
  end.

(** The strings [Number.prototype.toFixed] returns for one fraction
    digit: ["NaN"], a signed ["Infinity"], a sign followed by the digits
    of an integer [n] with a point before the last digit, or, from 10^21
    on, the shortest numeral that reads back as the same number. *)
Inductive fixed1 : Type :=
| FixNaN
| FixInfinity (neg : bool)
| FixDecimal (neg : bool) (n : Z)
| FixShortest (neg : bool) (m : positive) (e : Z).

Definition at_least_1e21 (m : positive) (e : Z) : bool :=
  if 0 <=? e then 10 ^ 21 <=? Zpos m * 2 ^ e
  else 10 ^ 21 * 2 ^ (- e) <=? Zpos m.

(** The integer [n] for which [n / 10] is closest to [m * 2^e]; of two
    such integers the larger. *)
Definition tenths (m : positive) (e : Z) : Z :=
  if 0 <=? e then 10 * Zpos m * 2 ^ e
  else round_half_up (10 * Zpos m) e.

Definition toFixed1 (x : number) : fixed1 :=
  match x with
  | S754_nan => FixNaN
  | S754_infinity s => FixInfinity s
  | S754_zero _ => FixDecimal false 0
  | S754_finite s m e =>
      if at_least_1e21 m e then FixShortest s m e
      else FixDecimal s (tenths m e)
  end.

(** [Number] applied to such a string. *)
Definition Number_fixed1 (s : fixed1) : number :=
  match s with
  | FixNaN => S754_nan
  | FixInfinity neg => S754_infinity neg
  | FixDecimal neg n => of_ratio neg n 10
  | FixShortest neg m e => S754_finite neg m e
  end.

(** The value of an [<input type="number">]: the empty string, or a
    numeral that denotes the number [x]. *)
Inductive input_value : Type :=
| EmptyValue
| Numeral (x : number).

(** [Number(e.target.value)]: the empty string converts to [+0]. *)
Definition Number_value (v : input_value) : number :=
  match v with
  | EmptyValue => S754_zero false
  | Numeral x => x
  end.

End JS.

Declare Scope js_scope.
Delimit Scope js_scope with js.
Infix "+" := JS.add : js_scope.
Infix "-" := JS.sub : js_scope.
Infix "*" := JS.mul : js_scope.
Infix "/" := JS.div : js_scope.
Infix "<?" := JS.lt : js_scope.
Infix "<=?" := JS.le : js_scope.
Infix ">=?" := JS.ge : js_scope.

(** Decimal literals of the source. *)
Definition lit_0 : JS.number := JS.of_Z 0.
Definition lit_2 : JS.number := JS.of_Z 2.
Definition lit_5 : JS.number := JS.of_Z 5.
Definition lit_2_5 : JS.number := JS.of_ratio false 25 10.

(* ================================================================== *)
(** ** The geometry solver *)
(* ================================================================== *)

Module Solver.

Import JS.

(** [type Geometry = { spacing; girders; overhang }]. *)
Record Geometry : Type := mkGeometry {
  spacing : number;
  girders : number;
  overhang : number
}.

(** [number | ""], the type of [carriagewayWidth]. *)
Inductive NumberOrBlank : Type :=
| Blank
| Num (n : number).

(** The state cells the solver reads and writes. *)
Record State : Type := mkState {
  geometry : option Geometry;
  geometryError : string;
  carriagewayWidth : NumberOrBlank;
  showModal : bool
}.

Definition setGeometry (g : Geometry) (st : State) : State :=
  mkState (Some g) (geometryError st) (carriagewayWidth st) (showModal st).

Definition setGeometryError (msg : string) (st : State) : State :=
  mkState (geometry st) msg (carriagewayWidth st) (showModal st).

Definition setShowModal (b : bool) (st : State) : State :=
  mkState (geometry st) (geometryError st) (carriagewayWidth st) b.

(** The state of a freshly mounted component. *)
Definition initialState : State := mkState None "" Blank false.

(** What the user types into the carriageway-width field. *)
Definition setCarriagewayWidth (v : input_value) (st : State) : State :=
  mkState (geometry st) (geometryError st)
    (match v with EmptyValue => Blank | Numeral x => Num x end)
    (showModal st).

(** [Number(x.toFixed(1))]. *)
Definition round1 (x : number) : number := Number_fixed1 (toFixed1 x).

(** [openGeometryModal]: returns the next state and the text of the
    alert it raised, if any. *)
Definition openGeometryModal (st : State) : State * option string :=
  match carriagewayWidth st with
  | Blank =>
      (st, Some "Please enter Carriageway Width before modifying geometry"%string)
  | Num cw =>
      let overallWidth := (cw + lit_5)%js in
      let spacing := lit_2_5 in
      let girders := Math_floor ((overallWidth - lit_2) / spacing)%js in
      let overhang := round1 (overallWidth - girders * spacing)%js in
      (setShowModal true
         (setGeometryError ""
            (setGeometry (mkGeometry spacing girders overhang) st)),
       None)
  end.

Definition updateFromSpacing (spacing : number) (st : State) : State :=
  match geometry st, carriagewayWidth st with
  | Some geom, Num cw =>
      let overallWidth := (cw + lit_5)%js in
      if ((spacing <=? lit_0) || (spacing >=? overallWidth))%js then
        setGeometryError "Invalid spacing" st
      else
        let girders :=
          Math_round ((overallWidth - overhang geom) / spacing)%js in
        let overhang := round1 (overallWidth - girders * spacing)%js in
        if (overhang <? lit_0)%js then
          setGeometryError "Geometry constraints violated" st
        else
          setGeometryError ""
            (setGeometry (mkGeometry spacing girders overhang) st)
  | _, _ => st
  end.

Definition updateFromGirders (girders : number) (st : State) : State :=
  match geometry st, carriagewayWidth st with
  | Some geom, Num cw =>
      let overallWidth := (cw + lit_5)%js in
      if (girders <=? lit_0)%js then
        setGeometryError "Number of girders must be positive" st
      else
        let overhang :=
          round1 (overallWidth - Solver.spacing geom * girders)%js in
        if ((overhang <? lit_0) || (overhang >=? overallWidth))%js then
          setGeometryError "Geometry constraints violated" st
        else
          setGeometryError ""
            (setGeometry (mkGeometry (Solver.spacing geom) girders overhang) st)
  | _, _ => st
  end.

Definition updateFromOverhang (overhang : number) (st : State) : State :=
  match geometry st, carriagewayWidth st with
  | Some geom, Num cw =>
      let overallWidth := (cw + lit_5)%js in
      if ((overhang <? lit_0) || (overhang >=? overallWidth))%js then
        setGeometryError "Invalid overhang" st
      else
        let spacing :=
          round1 ((overallWidth - overhang) / Solver.girders geom)%js in
        if (spacing <=? lit_0)%js then
          setGeometryError "Geometry constraints violated" st
        else
          setGeometryError ""
            (setGeometry (mkGeometry spacing (Solver.girders geom) overhang) st)
  | _, _ => st
  end.

(** The typed errors of the solver and the message that reports each. *)
Inductive SolverError : Type :=
| InvalidSpacing
| InvalidGirderCount
| InvalidOverhang
| ConstraintViolated.

Definition message (e : SolverError) : string :=
  match e with
  | InvalidSpacing => "Invalid spacing"
  | InvalidGirderCount => "Number of girders must be positive"
  | InvalidOverhang => "Invalid overhang"
  | ConstraintViolated => "Geometry constraints violated"
  end.

(** The three edit events of the dialog. *)
Inductive Edit : Type :=
| EditSpacing (v : number)
| EditGirders (v : number)
| EditOverhang (v : number).

Definition apply_edit (e : Edit) (st : State) : State :=
  match e with
  | EditSpacing v => updateFromSpacing v st
  | EditGirders v => updateFromGirders v st
  | EditOverhang v => updateFromOverhang v st
  end.

(** The solver operations: opening the dialog, which initializes the
    triple, and the three edits. *)
Inductive Operation : Type :=
| OpOpen
| OpEdit (e : Edit).

Definition run (op : Operation) (st : State) : State :=
  match op with
  | OpOpen => fst (openGeometryModal st)
  | OpEdit e => apply_edit e st
  end.

(** An operation succeeds when it reaches its [setGeometry]: the width
    is a number and, for an edit, a triple is held and the error
    message comes out empty. *)
Definition succeeds (op : Operation) (st : State) : Prop :=
  carriagewayWidth st <> Blank /\
  match op with
  | OpOpen => True
  | OpEdit _ => geometry st <> None /\ geometryError (run op st) = ""%string
  end.

(** An integral number: zero, or a finite [m * 2^e] in which [2^(-e)]
    divides [m] when [e] is negative. *)
Definition is_integer (x : number) : bool :=
  match x with
  | S754_zero _ => true
  | S754_finite s m e =>
      if 0 <=? e then true else Zpos m mod 2 ^ (- e) =? 0
  | _ => false
  end.

(** Agreement within rounding tolerance, taken as one unit of the
    rounded decimal. *)
Definition tolerance : number := of_ratio false 1 10.

Definition within_tolerance (a b : number) : bool :=
  (SFabs (a - b) <=? tolerance)%js.

(** The geometry invariant of the data model, decided with the
    operators of the program. *)
Definition invariantb (W : number) (g : Geometry) : bool :=
  within_tolerance (overhang g) (round1 (W - spacing g * girders g)%js)
  && (lit_0 <=? overhang g)%js
  && (overhang g <? W)%js
  && (lit_0 <? spacing g)%js
  && is_integer (girders g)
  && (of_Z 1 <=? girders g)%js.

Definition invariant (W : number) (g : Geometry) : Prop :=
  invariantb W g = true.

(** None of the overall width and the three stored numbers is NaN. *)
Definition numbers (W : number) (g : Geometry) : Prop :=
  is_nan W = false /\ is_nan (spacing g) = false /\
  is_nan (girders g) = false /\ is_nan (overhang g) = false.

(** What each operation establishes for the triple [g'] it stores,
    given the triple [old] it started from. *)
Definition postcondition
    (W : number) (old : option Geometry) (op : Operation) (g' : Geometry) : Prop :=
  match op, old with
  | OpOpen, _ =>
      spacing g' = lit_2_5 /\
      girders g' = Math_floor ((W - lit_2) / lit_2_5)%js /\
      overhang g' = round1 (W - girders g' * spacing g')%js /\
      (lit_0 <? spacing g')%js = true /\
      (is_finite (girders g') = true -> is_integer (girders g') = true)
  | OpEdit (EditSpacing _), Some g =>
      girders g' = Math_round ((W - overhang g) / spacing g')%js /\
      overhang g' = round1 (W - girders g' * spacing g')%js /\
      (lit_0 <=? overhang g')%js = true /\
      (lit_0 <? spacing g')%js = true /\
      (spacing g' <? W)%js = true /\
      (is_finite (girders g') = true -> is_integer (girders g') = true)
  | OpEdit (EditGirders _), Some g =>
      spacing g' = spacing g /\
      overhang g' = round1 (W - spacing g' * girders g')%js /\
      (lit_0 <=? overhang g')%js = true /\
      (overhang g' <? W)%js = true /\
      (lit_0 <? girders g')%js = true
  | OpEdit (EditOverhang _), Some g =>
      girders g' = girders g /\
      spacing g' = round1 ((W - overhang g') / girders g')%js /\
      (lit_0 <=? overhang g')%js = true /\
      (overhang g' <? W)%js = true /\
      (lit_0 <? spacing g')%js = true
  | OpEdit _, None => False
  end.

(** Applying the same spacing twice gives the same triple both times. *)
Definition idempotent_at (s : number) (st : State) : Prop :=
  geometryError (updateFromSpacing s st) = ""%string ->
  geometry (updateFromSpacing s (updateFromSpacing s st)) =
    geometry (updateFromSpacing s st).

End Solver.

(* ================================================================== *)
(** ** The custom-parameter form and the query it sends *)
(* ================================================================== *)

Module CustomParams.

Import JS.

(** The [manualParams] state cell; [None] is [null]. *)
Record ManualParams : Type := mkParams {
  windSpeed : option number;
  seismicZone : string;
  minTemp : option number;
  maxTemp : option number
}.

Definition initialParams : ManualParams := mkParams None "" None None.

(** The [onChange] handlers of the four controls, each the updater
    passed to [setManualParams]. *)
Definition onWindSpeedChange (v : input_value) (p : ManualParams) : ManualParams :=
  mkParams (Some (Number_value v)) (seismicZone p) (minTemp p) (maxTemp p).

Definition onSeismicZoneChange (v : string) (p : ManualParams) : ManualParams :=
  mkParams (windSpeed p) v (minTemp p) (maxTemp p).

Definition onMinTempChange (v : input_value) (p : ManualParams) : ManualParams :=
  mkParams (windSpeed p) (seismicZone p) (Some (Number_value v)) (maxTemp p).

Definition onMaxTempChange (v : input_value) (p : ManualParams) : ManualParams :=
  mkParams (windSpeed p) (seismicZone p) (minTemp p) (Some (Number_value v)).

(** The JSON object [fetchClosestLocation] posts; [None] is [null]. *)
Record ClosestRequest : Type := mkRequest {
  wind_speed : option number;
  seismic_zone : string;
  min_temp : option number;
  max_temp : option number
}.

(** [JSON.stringify] of a property that holds a number or [null], read as
    the value the text written denotes: a finite number is written as a
    numeral that reads back as the same number, except that [-0] is
    written [0]; NaN and the infinities are written [null]. *)
Definition JSON_number (v : option number) : option number :=
  match v with
  | None => None
  | Some S754_nan => None
  | Some (S754_infinity _) => None
  | Some (S754_zero _) => Some (S754_zero false)
  | Some (S754_finite s m e) => Some (S754_finite s m e)
  end.

(** The request body of [fetchClosestLocation], as [JSON.stringify]
    writes it.  [manualParams] is always an object, so the guard
    [!manualParams] never fires. *)
Definition fetchClosestLocation (p : ManualParams) : ClosestRequest :=
  mkRequest (JSON_number (windSpeed p)) (seismicZone p)
    (JSON_number (minTemp p)) (JSON_number (maxTemp p)).

(** The form as the user sees it: the text of the three uncontrolled
    number fields, next to the state cell the handlers maintain. *)
Record Form : Type := mkForm {
  windField : input_value;
  minField : input_value;
  maxField : input_value;
  params : ManualParams
}.

Definition initialForm : Form :=
  mkForm EmptyValue EmptyValue EmptyValue initialParams.

Inductive FormEvent : Type :=
| TypeWindSpeed (v : input_value)
| SelectSeismicZone (v : string)
| TypeMinTemp (v : input_value)
| TypeMaxTemp (v : input_value).

Definition step (f : Form) (ev : FormEvent) : Form :=
  match ev with
  | TypeWindSpeed v =>
      mkForm v (minField f) (maxField f) (onWindSpeedChange v (params f))
  | SelectSeismicZone v =>
      mkForm (windField f) (minField f) (maxField f)
        (onSeismicZoneChange v (params f))
  | TypeMinTemp v =>
      mkForm (windField f) v (maxField f) (onMinTempChange v (params f))
  | TypeMaxTemp v =>
      mkForm (windField f) (minField f) v (onMaxTempChange v (params f))
  end.

Definition run (evs : list FormEvent) : Form := fold_left step evs initialForm.

(** A sent value is one the user supplied: the field shows a numeral
    and the query carries that number. *)
Definition supplied (field : input_value) (sent : option number) : Prop :=
  forall x, sent = Some x -> field = Numeral x.

Definition query_is_faithful (f : Form) : Prop :=
  let q := fetchClosestLocation (params f) in
  supplied (windField f) (wind_speed q) /\
  supplied (minField f) (min_temp q) /\
  supplied (maxField f) (max_temp q).

End CustomParams.

(* ================================================================== *)
(** ** The location matcher *)
(* ================================================================== *)

Module LocationMatcher.

Open Scope Q_scope.

Record Location : Type := mkLocation {
  state : string;
  district : string;
  windSpeed : Q;
  seismicZone : string;
  minTemp : Q;
  maxTemp : Q
}.

Record MatchQuery : Type := mkQuery {
  qWindSpeed : option Q;
  qSeismicZone : option string;
  qMinTemp : option Q;
  qMaxTemp : option Q
}.

Inductive MatcherError : Type :=
| UnknownSeismicZone
| EmptyQuery.

Inductive MatchResult : Type :=
| Match (location : Location) (confidence : Q)
| NoMatch
| Rejected (e : MatcherError).

(** Modelled from the spec: the ordered scale of seismic zones,
    I < II < III < IV < V. *)
Definition rank (zone : string) : option Q :=
  if String.eqb zone "I" then Some 1
  else if String.eqb zone "II" then Some 2
  else if String.eqb zone "III" then Some 3
  else if String.eqb zone "IV" then Some 4
  else if String.eqb zone "V" then Some 5
  else None.

Definition Qdist (a b : Q) : Q := Qabs (a - b).

Definition clamp01 (d : Q) : Q := Qmax 0 (Qmin d 1).

Section Scoring.

(** The scale constants and weights the spec leaves to the
    implementation. *)
Variables referenceSpan tempSpan zoneWeight windWeight tempWeight : Q.

(** Modelled from the spec: one normalized term per present query
    field, the two temperature bounds forming a single term. *)
Definition windTerm (q : MatchQuery) (l : Location) : option Q :=
  option_map (fun w => windWeight * (Qdist w (windSpeed l) / referenceSpan))
    (qWindSpeed q).

Definition zoneTerm (q : MatchQuery) (l : Location) : option Q :=
  match qSeismicZone q with
  | None => None
  | Some z =>
      match rank z, rank (seismicZone l) with
      | Some a, Some b => Some (zoneWeight * Qdist a b)
      | _, _ => None
      end
  end.

Definition tempTerm (q : MatchQuery) (l : Location) : option Q :=
  match qMinTemp q, qMaxTemp q with
  | None, None => None
  | lo, hi =>
      let part (x : option Q) (y : Q) :=
        match x with Some v => Qdist v y / tempSpan | None => 0 end in
      Some (tempWeight * (part lo (minTemp l) + part hi (maxTemp l)))
  end.

Definition present (terms : list (option Q)) : list Q :=
  flat_map (fun t => match t with Some v => [v] | None => [] end) terms.

(** Modelled from the spec: the weighted sum of the present terms
    divided by their number. *)
Definition dissimilarity (q : MatchQuery) (l : Location) : Q :=
  let ts := present [windTerm q l; zoneTerm q l; tempTerm q l] in
  fold_right Qplus 0 ts / inject_Z (Z.of_nat (length ts)).

Definition confidence (d : Q) : Q := 100 * (1 - clamp01 d).

(** Modelled from the spec: the checks on the query, made once a
    candidate exists. *)
Definition validate (q : MatchQuery) : option MatcherError :=
  match qSeismicZone q with
  | Some z =>
      match rank z with
      | None => Some UnknownSeismicZone
      | Some _ => None
      end
  | None =>
      match qWindSpeed q, qMinTemp q, qMaxTemp q with
      | None, None, None => Some EmptyQuery
      | _, _, _ => None
      end
  end.

(** Modelled from the spec: the linear scan; a later entry replaces
    the best one only when strictly closer, so the first of equally
    close entries wins. *)
Fixpoint scan (q : MatchQuery) (best : Location) (rest : list Location) : Location :=
  match rest with
  | [] => best
  | l :: rest' =>
      if Qlt_le_dec (dissimilarity q l) (dissimilarity q best)
      then scan q l rest'
      else scan q best rest'
  end.

(** Modelled from the spec: [findClosest(query, catalog)] of the
    backend matcher, whose code is not part of the frontend sources.
    An empty catalog is answered before the query is examined. *)
Definition findClosest (q : MatchQuery) (catalog : list Location) : MatchResult :=
  match catalog with
  | [] => NoMatch
  | first :: rest =>
      match validate q with
      | Some e => Rejected e
      | None =>
          let best := scan q first rest in
          Match best (confidence (dissimilarity q best))
      end
  end.

End Scoring.

End LocationMatcher.

(* ================================================================== *)
(** ** Worked states *)
(* ================================================================== *)

Module Examples.

Import JS Solver.

Definition dec (n : Z) (d : positive) : number := of_ratio false n d.

(** The dialog opened on a carriageway width of 7.5. *)
Definition typed_7_5 : State :=
  setCarriagewayWidth (Numeral (dec 75 10)) initialState.

Definition base : State := fst (openGeometryModal typed_7_5).

Definition base_triple : Geometry :=
  mkGeometry (dec 25 10) (of_Z 4) (dec 25 10).

(** Spacing 0.1 typed into [base], then overhang 0. *)
Definition fine_spacing : State := updateFromSpacing (dec 1 10) base.
Definition fine_then_flush : State := updateFromOverhang (of_Z 0) fine_spacing.

(** One girder typed into [base], then spacing 6. *)
Definition one_girder : State := updateFromGirders (of_Z 1) base.
Definition one_then_wide : State := updateFromSpacing (of_Z 6) one_girder.

(** Overhang 2.45 typed into [base], then spacing 0.01 twice. *)
Definition odd_overhang : State := updateFromOverhang (dec 245 100) base.
Definition once : State := updateFromSpacing (dec 1 100) odd_overhang.
Definition twice : State := updateFromSpacing (dec 1 100) once.

End Examples.

(* ================================================================== *)
(** ** Field validation of the geometric details *)
(* ================================================================== *)

Module Validation.

Import JS.

Definition lit_20 : number := of_Z 20.
Definition lit_45 : number := of_Z 45.
Definition lit_15 : number := of_Z 15.
Definition lit_4_25 : number := of_ratio false 425 100.

(** [Math.abs], unary minus and [Number.isNaN]. *)
Definition Math_abs (x : number) : number := SFabs x.
Definition neg (x : number) : number := SFopp x.
Definition Number_isNaN (x : number) : bool := is_nan x.

Definition validateSpan (span : Solver.NumberOrBlank) : string :=
  match span with
  | Solver.Blank => ""
  | Solver.Num span =>
      if ((span <? lit_20) || JS.gt span lit_45)%js
      then "Span must be between 20 m and 45 m"
      else ""
  end.

Definition validateCarriagewayWidth (width : Solver.NumberOrBlank) : string :=
  match width with
  | Solver.Blank => ""
  | Solver.Num width =>
      if (width <? lit_4_25)%js
      then "Carriageway width must be at least 4.25 m"
      else ""
  end.

(** The [{ error, warning }] object of [validateSkewAngle]. *)
Record SkewResult : Type := mkSkew {
  error : string;
  warning : string
}.

Definition validateSkewAngle (skewAngle : Solver.NumberOrBlank) : SkewResult :=
  match skewAngle with
  | Solver.Blank => mkSkew "" ""
  | Solver.Num skewAngle =>
      let abs := Math_abs skewAngle in
      if Number_isNaN abs then mkSkew "Skew angle must be a valid number" ""
      else if (abs <=? lit_15)%js then mkSkew "" ""
      else mkSkew "" "Detailed analysis required as per IRC"
  end.

(** ["Highway" | "Other" | ""]. *)
Inductive StructureType : Type :=
| Highway
| Other
| Unselected.

(** The state cells of the geometric-details section. *)
Record Details : Type := mkDetails {
  structureType : StructureType;
  span : Solver.NumberOrBlank;
  carriagewayWidth : Solver.NumberOrBlank;
  skewAngle : Solver.NumberOrBlank;
  spanError : string;
  carriagewayError : string;
  skewError : string;
  skewWarning : string
}.

Definition handleSpanBlur (d : Details) : Details :=
  mkDetails (structureType d) (span d) (carriagewayWidth d) (skewAngle d)
    (validateSpan (span d)) (carriagewayError d) (skewError d) (skewWarning d).

Definition handleCarriagewayBlur (d : Details) : Details :=
  mkDetails (structureType d) (span d) (carriagewayWidth d) (skewAngle d)
    (spanError d) (validateCarriagewayWidth (carriagewayWidth d))
    (skewError d) (skewWarning d).

Definition handleSkewBlur (d : Details) : Details :=
  let r := validateSkewAngle (skewAngle d) in
  mkDetails (structureType d) (span d) (carriagewayWidth d) (skewAngle d)
    (spanError d) (carriagewayError d) (error r) (warning r).

(** [!!s] for a string [s]. *)
Definition truthy (s : string) : bool := negb (String.eqb s "").

Definition hasBlockingErrors (d : Details) : bool :=
  truthy (spanError d) || truthy (carriagewayError d) || truthy (skewError d)
  || match structureType d with Other => true | _ => false end.

(** The numbers each validator turns away. *)
Definition span_out_of_range (v : Solver.NumberOrBlank) : Prop :=
  exists x, v = Solver.Num x /\ ((x <? lit_20)%js = true \/ (lit_45 <? x)%js = true).

Definition width_too_small (v : Solver.NumberOrBlank) : Prop :=
  exists x, v = Solver.Num x /\ (x <? lit_4_25)%js = true.

Definition skew_is_NaN (v : Solver.NumberOrBlank) : Prop :=
  v = Solver.Num NaN.

End Validation.

(* ================================================================== *)
(** ** The geometry dialog as an event loop *)
(* ================================================================== *)

Module Dialog.

Import JS Solver.

(** What the user can do around the dialog: type a carriageway width,
    press "Modify Additional Geometry", edit one of the three fields, or
    press Cancel or Confirm, which both only hide the dialog. *)
Inductive Event : Type :=
| TypeWidth (v : input_value)
| OpenDialog
| EditField (e : Edit)
| CloseDialog.

Definition handle (st : State) (ev : Event) : State :=
  match ev with
  | TypeWidth v => setCarriagewayWidth v st
  | OpenDialog => fst (openGeometryModal st)
  | EditField e => apply_edit e st
  | CloseDialog => setShowModal false st
  end.

Definition after (evs : list Event) : State := fold_left handle evs initialState.

Definition apply_edits (es : list Edit) (st : State) : State :=
  fold_left (fun s e => apply_edit e s) es st.

(** The facts every reachable state satisfies: the message is empty or
    one of the four; a message or an open dialog means a triple is held;
    a held spacing is never [<= 0], hence positive unless NaN. *)
Definition well_formed (st : State) : Prop :=
  (geometryError st = ""%string \/ exists err, geometryError st = message err)
  /\ (geometryError st <> ""%string -> geometry st <> None)
  /\ (showModal st = true -> geometry st <> None)
  /\ (forall g, geometry st = Some g ->
        (spacing g <=? lit_0)%js = false
        /\ (is_nan (spacing g) = false -> (lit_0 <? spacing g)%js = true)).

(** The state the cells agree on: same triple and same width. *)
Definition same_inputs (a b : State) : Prop :=
  geometry a = geometry b /\ carriagewayWidth a = carriagewayWidth b.

End Dialog.

(* ================================================================== *)
(** ** The history of the custom-parameter form *)
(* ================================================================== *)

Module History.

Import JS CustomParams.







End History.

(* ================================================================== *)
(** ** The base URL of the location API *)
(* ================================================================== *)

Module Api.

Local Open Scope string_scope.

(** [url.replace(/\/$/, "")]: the search tries each position from the
    left; the pattern matches where a ["/"] is followed by the end of the
    input, and the match is replaced by the empty string. *)
Fixpoint normalizeBaseUrl (url : string) : string :=
  match url with
  | EmptyString => EmptyString
  | String c rest =>
      if (Ascii.eqb c "/"%char && String.eqb rest ""%string)%bool then EmptyString
      else String c (normalizeBaseUrl rest)
  end.

(** [window.location], as far as it is read. *)
Record WindowLocation : Type := mkLocation {
  protocol : string;
  hostname : string
}.

Definition FALLBACK : string := "http://localhost:8000/api".

(** [getDefaultBaseUrl]; [None] is an undefined [window]. *)
Definition getDefaultBaseUrl (window : option WindowLocation) : string :=
  match window with
  | None => FALLBACK
  | Some location =>
      let protocol :=
        if String.eqb (protocol location) "https:" then "https:" else "http:" in
      let hostname :=
        if String.eqb (hostname location) "" then "localhost"
        else hostname location in
      (protocol ++ "//" ++ hostname ++ ":8000/api")%string
  end.

(** [BASE_URL]; [env] is [import.meta.env.VITE_API_BASE_URL], [None] when
    it is undefined. *)
Definition BASE_URL (env : option string) (window : option WindowLocation) : string :=
  normalizeBaseUrl
    (match env with Some url => url | None => getDefaultBaseUrl window end).

(** The address [getStates] fetches. *)
Definition getStates_url (env : option string) (window : option WindowLocation) : string :=
  (BASE_URL env window ++ "/states/")%string.

(** A string that ends with a slash. *)
Definition ends_with_slash (s : string) : Prop :=
  exists t, s = (t ++ "/")%string.

End Api.

(* ================================================================== *)
(** ** Rounding, as the specification words it *)
(* ================================================================== *)

Module Spec.

Import JS.

(** The rational number a finite [number] stands for, [m * 2^e] with its
    sign; 0 for the others. *)
Definition B2Q (x : number) : Q :=
  match x with
  | S754_finite s m e =>
      if 0 <=? e then inject_Z (cond_Zopp s (Zpos m) * 2 ^ e)
      else Qmake (cond_Zopp s (Zpos m)) (Pos.pow 2 (Z.to_pos (- e)))
  | _ => 0%Q
  end.

(** [n] is the integer nearest to [v], the larger of two equally near. *)
Definition nearest_integer (v : Q) (n : Z) : Prop :=
  (inject_Z n - (1 # 2) <= v /\ v < inject_Z n + (1 # 2))%Q.

(** [n] is the largest integer not above [v]. *)
Definition floor_integer (v : Q) (n : Z) : Prop :=
  (inject_Z n <= v /\ v < inject_Z n + 1)%Q.

(** The integer [n] as a [number]; a zero carries the sign [neg]. *)
Definition integer_number (neg : bool) (n : Z) : number :=
  if n =? 0 then S754_zero neg else of_Z n.

(** [r] is [x] rounded to the nearest integer: [x] itself when [x] is
    not finite or is written with a non-negative exponent, and so is an
    integer already; otherwise the number of the nearest integer. *)
Definition round_to_nearest_int (x r : number) : Prop :=
  match x with
  | S754_finite s _ _ =>
      exists n, nearest_integer (B2Q x) n
                /\ ((B2Q x == inject_Z n)%Q /\ r = x \/ r = integer_number s n)
  | _ => r = x
  end.

(** [r] is the floor of [x]. *)
Definition floor_of (x r : number) : Prop :=
  match x with
  | S754_finite s _ _ =>
      exists n, floor_integer (B2Q x) n
                /\ ((B2Q x == inject_Z n)%Q /\ r = x \/ r = integer_number false n)
  | _ => r = x
  end.

(** [r] is [x] rounded to one decimal place: below 10^21 in magnitude,
    the number nearest to [n / 10] with the sign of [x], where [n] is the
    integer nearest to ten times the magnitude of [x]; from 10^21 on and
    for NaN and the infinities, [x] itself; for a zero, [+0]. *)
Definition one_decimal (x r : number) : Prop :=
  match x with
  | S754_finite s _ _ =>
      (inject_Z (10 ^ 21) <= Qabs (B2Q x) -> r = x)%Q
      /\ (Qabs (B2Q x) < inject_Z (10 ^ 21) ->
          exists n, nearest_integer (10 * Qabs (B2Q x)) n /\ r = of_ratio s n 10)%Q
  | S754_zero _ => r = S754_zero false
  | _ => r = x
  end.

(** The rational number [m * 2^e]. *)
Definition F2Q (m e : Z) : Q := (inject_Z m * 2 ^ e)%Q.

(** The sign of a [number], as a factor. *)
Definition sgnQ (s : bool) : Q := if s then (-1)%Q else 1%Q.

(** The [number] with sign [sx], mantissa [m] and exponent [e]; this is
    the shape in which the rounding of [SpecFloat] yields a finite
    result. *)
Definition pack (sx : bool) (m e : Z) : number :=
  match m with
  | Z0 => S754_zero sx
  | Zpos p => S754_finite sx p e
  | Zneg _ => S754_nan
  end.

End Spec.

(* ================================================================== *)
(** ** Order facts about the relational operators *)
(* ================================================================== *)

Section Comparisons.

Import JS.

Lemma SFcompare_swap (x y : number) (c : comparison) :
  SFcompare x y = Some c -> SFcompare y x = Some (CompOpp c).
Proof.
  destruct x as [sx|sx| |sx mx ex], y as [sy|sy| |sy my ey];
    cbn; try discriminate;
    try (destruct sx); try (destruct sy);
    intros H; inversion H; subst; try reflexivity.
  - rewrite (Z.compare_antisym ey ex).
    destruct (ey ?= ex); cbn; try reflexivity.
    now rewrite CompOpp_involutive, (Pos.compare_cont_antisym my mx Eq).
  - rewrite (Z.compare_antisym ey ex).
    destruct (ey ?= ex); cbn; try reflexivity.
    now rewrite (Pos.compare_cont_antisym mx my Eq).
Qed.

Lemma SFcompare_defined (x y : number) :
  is_nan x = false -> is_nan y = false ->
  exists c, SFcompare x y = Some c.
Proof.
  destruct x, y; cbn; intros; try discriminate; eauto.
Qed.

(** Away from NaN, the failure of [x < y] is [y <= x]. *)
Lemma not_lt_is_ge (x y : number) :
  is_nan x = false -> is_nan y = false ->
  lt x y = false -> le y x = true.
Proof.
  intros Hx Hy. unfold lt, le, SFltb, SFleb.
  destruct (SFcompare_defined x y Hx Hy) as [c Hc].
  rewrite Hc, (SFcompare_swap _ _ _ Hc).
  destruct c; cbn; congruence.
Qed.

(** Away from NaN, the failure of [x <= y] is [y < x]. *)
Lemma not_le_is_gt (x y : number) :
  is_nan x = false -> is_nan y = false ->
  le x y = false -> lt y x = true.
Proof.
  intros Hx Hy. unfold lt, le, SFltb, SFleb.
  destruct (SFcompare_defined x y Hx Hy) as [c Hc].
  rewrite Hc, (SFcompare_swap _ _ _ Hc).
  destruct c; cbn; congruence.
Qed.

Lemma lit_0_not_nan : is_nan lit_0 = false.
Proof. reflexivity. Qed.

End Comparisons.

(* ================================================================== *)
(** ** Integrality of [Math.round] and [Math.floor] *)
(* ================================================================== *)

Section Integrality.

Import JS Solver.

Lemma Zpos_iter_xO (k p : positive) :
  Zpos (Pos.iter xO p k) = Zpos p * 2 ^ Zpos k.
Proof.
  revert p. induction k using Pos.peano_ind; intros p.
  - cbn [Pos.iter]. lia.
  - rewrite Pos.iter_succ, Pos2Z.inj_succ, Z.pow_succ_r by lia.
    rewrite Pos2Z.inj_xO, IHk. lia.
Qed.

Lemma digits2_pos_iter_xO (k p : positive) :
  Zpos (digits2_pos (Pos.iter xO p k)) = Zpos (digits2_pos p) + Zpos k.
Proof.
  revert p. induction k using Pos.peano_ind; intros p.
  - cbn. lia.
  - rewrite Pos.iter_succ. cbn [digits2_pos]. rewrite Pos2Z.inj_succ, IHk. lia.
Qed.

Lemma shr_exponent (mrs : shr_record) (e n : Z) : e <= snd (shr mrs e n).
Proof. destruct n; cbn; lia. Qed.

Lemma binary_round_aux_exponent (sx : bool) (mx ex : Z) (lx : location) :
  match binary_round_aux prec emax sx mx ex lx with
  | S754_finite _ _ e => ex <= e
  | _ => True
  end.
Proof.
  unfold binary_round_aux, shr_fexp.
  destruct (shr _ ex _) as [mrs' e'] eqn:H1.
  destruct (shr _ e' _) as [mrs'' e''] eqn:H2.
  pose proof (shr_exponent (shr_record_of_loc mx lx) ex
                (fexp prec emax (Zdigits2 mx + ex) - ex)) as L1.
  rewrite H1 in L1. cbn [snd] in L1.
  match type of H2 with shr ?a ?b ?c = _ =>
    pose proof (shr_exponent a b c) as L2 end.
  rewrite H2 in L2. cbn [snd] in L2.
  destruct (shr_m mrs''); trivial.
  destruct (e'' <=? emax - prec); trivial. lia.
Qed.

Lemma of_Z_small (s : bool) (p : positive) :
  Zpos (digits2_pos p) < 53 ->
  binary_round prec emax s p 0 =
    S754_finite s (Pos.iter xO p (Z.to_pos (53 - Zpos (digits2_pos p))))
      (Zpos (digits2_pos p) - 53).
Proof.
  intros Hd.
  unfold binary_round, shl_align.
  assert (Hf : fexp prec emax (Zpos (digits2_pos p) + 0) = Zpos (digits2_pos p) - 53).
  { unfold fexp, emin, prec, emax. lia. }
  rewrite Hf.
  destruct (Zpos (digits2_pos p) - 53 - 0) as [| q | q] eqn:Hq; try lia.
  assert (Hk : Z.to_pos (53 - Zpos (digits2_pos p)) = q) by lia.
  rewrite Hk.
  unfold binary_round_aux, shr_fexp.
  cbn [Zdigits2].
  rewrite digits2_pos_iter_xO.
  assert (H0 : fexp prec emax (Zpos (digits2_pos p) + Zpos q + (Zpos (digits2_pos p) - 53))
               - (Zpos (digits2_pos p) - 53) = 0).
  { unfold fexp, emin, prec, emax. lia. }
  rewrite H0. cbn [shr shr_record_of_loc shr_m loc_of_shr_record round_nearest_even Zdigits2].
  rewrite digits2_pos_iter_xO, H0. cbn [shr shr_m].
  replace (Zpos (digits2_pos p) - 53 <=? emax - prec) with true; [reflexivity |].
  symmetry. apply Z.leb_le. unfold emax, prec. lia.
Qed.

Lemma binary_round_integer (s : bool) (p : positive) :
  is_finite (binary_round prec emax s p 0) = true ->
  is_integer (binary_round prec emax s p 0) = true.
Proof.
  destruct (Z_lt_le_dec (Zpos (digits2_pos p)) 53) as [Hd | Hd].
  - rewrite (of_Z_small s p Hd). intros _. cbn [is_integer].
    destruct (0 <=? Zpos (digits2_pos p) - 53) eqn:He; [reflexivity |].
    apply Z.eqb_eq. rewrite Zpos_iter_xO.
    replace (- (Zpos (digits2_pos p) - 53))
      with (Zpos (Z.to_pos (53 - Zpos (digits2_pos p)))) by lia.
    apply Z.mod_mul. lia.
  - unfold binary_round, shl_align.
    assert (Hf : fexp prec emax (Zpos (digits2_pos p) + 0) - 0 >= 0).
    { unfold fexp, emin, prec, emax. lia. }
    assert (Haux : is_finite (binary_round_aux prec emax s (Zpos p) 0 loc_Exact) = true ->
                   is_integer (binary_round_aux prec emax s (Zpos p) 0 loc_Exact) = true).
    { pose proof (binary_round_aux_exponent s (Zpos p) 0 loc_Exact) as L.
      destruct (binary_round_aux prec emax s (Zpos p) 0 loc_Exact)
        as [s' | s' | | s' m' e']; cbn [is_finite is_integer];
        intros H; try discriminate H; try reflexivity.
      replace (0 <=? e') with true; [reflexivity |].
      symmetry. apply Z.leb_le. exact L. }
    destruct (fexp prec emax (Zpos (digits2_pos p) + 0) - 0) eqn:Hq;
      try lia; exact Haux.
Qed.

Lemma of_Z_integer (n : Z) :
  is_finite (of_Z n) = true -> is_integer (of_Z n) = true.
Proof.
  unfold of_Z, binary_normalize. destruct n; [reflexivity | |];
    apply binary_round_integer.
Qed.

Lemma Math_round_integer (x : number) :
  is_finite (Math_round x) = true -> is_integer (Math_round x) = true.
Proof.
  destruct x as [s | s | | s m e]; cbn [Math_round is_finite is_integer];
    try (intros H; exact H).
  destruct (0 <=? e) eqn:He.
  - intros _. cbn [is_integer]. rewrite He. reflexivity.
  - destruct (_ =? 0); [reflexivity | apply of_Z_integer].
Qed.

Lemma Math_floor_integer (x : number) :
  is_finite (Math_floor x) = true -> is_integer (Math_floor x) = true.
Proof.
  destruct x as [s | s | | s m e]; cbn [Math_floor is_finite is_integer];
    try (intros H; exact H).
  destruct (0 <=? e) eqn:He.
  - intros _. cbn [is_integer]. rewrite He. reflexivity.
  - destruct (_ =? 0); [reflexivity | apply of_Z_integer].
Qed.

End Integrality.

(* ================================================================== *)
(** ** The program's rounding is the specification's *)
(* ================================================================== *)

Section RoundingSpec.

Import JS Solver Spec.

Lemma pow2_pos (k : Z) : 0 <= k -> 0 < 2 ^ k.
Proof. intros. apply Z.pow_pos_nonneg; lia. Qed.

Lemma Zpos_pow2 (e : Z) : e < 0 -> Zpos (Pos.pow 2 (Z.to_pos (- e))) = 2 ^ (- e).
Proof.
  intros He. rewrite Pos2Z.inj_pow. f_equal. lia.
Qed.

(* nearest for a fraction *)
Lemma nearest_fraction (a : Z) (d : positive) (n : Z) :
  nearest_integer (a # d) n <-> (2 * n - 1) * Zpos d <= 2 * a < (2 * n + 1) * Zpos d.
Proof.
  unfold nearest_integer, Qle, Qlt, Qminus, Qplus, Qopp, inject_Z.
  cbn [Qnum Qden]. split; intros [H1 H2]; split; lia.
Qed.

Lemma round_half_up_spec (M e : Z) :
  e < 0 ->
  let n := round_half_up M e in
  (2 * n - 1) * 2 ^ (- e) <= 2 * M < (2 * n + 1) * 2 ^ (- e).
Proof.
  intros He n. subst n. unfold round_half_up.
  assert (Hp := pow2_pos (- e) ltac:(lia)).
  replace (- e + 1) with (Z.succ (- e)) by lia.
  rewrite Z.pow_succ_r by lia.
  pose proof (Z.div_mod (2 * M + 2 ^ (- e)) (2 * 2 ^ (- e)) ltac:(lia)) as Hdm.
  pose proof (Z.mod_pos_bound (2 * M + 2 ^ (- e)) (2 * 2 ^ (- e)) ltac:(lia)) as Hb.
  nia.
Qed.

Lemma Math_round_nearest (x : number) : round_to_nearest_int x (Math_round x).
Proof.
  destruct x as [s | s | | s m e]; cbn [round_to_nearest_int Math_round]; try reflexivity.
  destruct (0 <=? e) eqn:He.
  - exists (cond_Zopp s (Zpos m) * 2 ^ e). split.
    + unfold B2Q. rewrite He. unfold nearest_integer. split; lra.
    + left. split; [| reflexivity]. unfold B2Q. rewrite He. reflexivity.
  - apply Z.leb_gt in He.
    exists (round_half_up (cond_Zopp s (Zpos m)) e). split.
    + unfold B2Q. replace (0 <=? e) with false by (symmetry; apply Z.leb_gt; lia).
      apply nearest_fraction. rewrite Zpos_pow2 by lia.
      apply round_half_up_spec. lia.
    + right. reflexivity.
Qed.

Lemma floor_fraction (a : Z) (d : positive) (n : Z) :
  floor_integer (a # d) n <-> n * Zpos d <= a < (n + 1) * Zpos d.
Proof.
  unfold floor_integer, Qle, Qlt, Qplus, inject_Z.
  cbn [Qnum Qden]. split; intros [H1 H2]; split; lia.
Qed.

Lemma floor_exact_spec (M e : Z) :
  e < 0 ->
  floor_exact M e * 2 ^ (- e) <= M < (floor_exact M e + 1) * 2 ^ (- e).
Proof.
  intros He. unfold floor_exact.
  assert (Hp := pow2_pos (- e) ltac:(lia)).
  pose proof (Z.div_mod M (2 ^ (- e)) ltac:(lia)) as Hdm.
  pose proof (Z.mod_pos_bound M (2 ^ (- e)) ltac:(lia)) as Hb.
  nia.
Qed.

Lemma Math_floor_floor (x : number) : floor_of x (Math_floor x).
Proof.
  destruct x as [s | s | | s m e]; cbn [floor_of Math_floor]; try reflexivity.
  destruct (0 <=? e) eqn:He.
  - exists (cond_Zopp s (Zpos m) * 2 ^ e). split.
    + unfold B2Q. rewrite He. unfold floor_integer. split; lra.
    + left. split; [| reflexivity]. unfold B2Q. rewrite He. reflexivity.
  - apply Z.leb_gt in He.
    exists (floor_exact (cond_Zopp s (Zpos m)) e). split.
    + unfold B2Q. replace (0 <=? e) with false by (symmetry; apply Z.leb_gt; lia).
      apply floor_fraction. rewrite Zpos_pow2 by lia.
      apply floor_exact_spec. lia.
    + right. reflexivity.
Qed.

Lemma Qabs_B2Q (s : bool) (m : positive) (e : Z) :
  Qabs (B2Q (S754_finite s m e)) = B2Q (S754_finite false m e).
Proof.
  unfold B2Q. destruct (0 <=? e) eqn:He.
  - assert (Hp := pow2_pos e ltac:(apply Z.leb_le; exact He)).
    destruct s; cbn [cond_Zopp]; unfold Qabs, inject_Z; f_equal.
    + rewrite Z.abs_neq; nia.
    + rewrite Z.abs_eq; nia.
  - destruct s; reflexivity.
Qed.

Lemma at_least_1e21_spec (m : positive) (e : Z) :
  at_least_1e21 m e = true
  <-> (inject_Z (10 ^ 21) <= B2Q (S754_finite false m e))%Q.
Proof.
  unfold at_least_1e21, B2Q. cbn [cond_Zopp].
  destruct (0 <=? e) eqn:He.
  - rewrite Z.leb_le, <- Zle_Qle. reflexivity.
  - apply Z.leb_gt in He. rewrite Z.leb_le.
    unfold Qle, inject_Z. cbn [Qnum Qden]. rewrite (Zpos_pow2 e He), Z.mul_1_r.
    reflexivity.
Qed.

Lemma tenths_nearest (m : positive) (e : Z) :
  nearest_integer (10 * B2Q (S754_finite false m e)) (tenths m e).
Proof.
  unfold tenths, B2Q. cbn [cond_Zopp].
  destruct (0 <=? e) eqn:He.
  - unfold nearest_integer.
    replace (10 * Zpos m * 2 ^ e) with (10 * (Zpos m * 2 ^ e)) by ring.
    rewrite inject_Z_mult. change (inject_Z 10) with 10%Q.
    generalize (inject_Z (Zpos m * 2 ^ e)). intros a. split; lra.
  - apply Z.leb_gt in He.
    pose proof (round_half_up_spec (10 * Zpos m) e He) as H. cbn zeta in H.
    unfold nearest_integer, Qle, Qlt, Qminus, Qplus, Qopp, Qmult, inject_Z.
    cbn [Qnum Qden]. rewrite Pos.mul_1_l, (Zpos_pow2 e He).
    generalize dependent (2 ^ (- e)). intros P HP. lia.
Qed.

Lemma round1_one_decimal (x : number) : one_decimal x (round1 x).
Proof.
  destruct x as [s | s | | s m e]; try reflexivity.
  unfold one_decimal, round1. cbn [toFixed1].
  rewrite Qabs_B2Q.
  pose proof (at_least_1e21_spec m e) as Hge.
  destruct (at_least_1e21 m e); cbn [Number_fixed1].
  - split; [reflexivity |]. intros Hlt.
    assert (H := proj1 Hge eq_refl). lra.
  - split.
    + intros H. apply Hge in H. discriminate H.
    + intros _. exists (tenths m e). split; [apply tenths_nearest | reflexivity].
Qed.

End RoundingSpec.

(* ================================================================== *)
(** ** The rounding error of the arithmetic *)
(* ================================================================== *)

(** Each of [+], [-], [*] and [/] returns the binary64 number nearest to
    the exact result.  For a result below [2^K] in magnitude, with [K]
    in the normal range, the two differ by at most [2^(K - 51)]; the
    bound is coarse, and all the idempotence of [updateFromSpacing]
    needs. *)

Section RoundingError.

Import JS Solver Spec.


Lemma p2_pos (e : Z) : (0 < 2 ^ e)%Q.
Proof. apply Qpower_0_lt. reflexivity. Qed.

Lemma p2_add (a b : Z) : (2 ^ (a + b) == 2 ^ a * 2 ^ b)%Q.
Proof. apply Qpower_plus. discriminate. Qed.

Lemma p2_succ (a : Z) : (2 ^ (a + 1) == 2 * 2 ^ a)%Q.
Proof. rewrite p2_add. change (2 ^ 1)%Q with 2%Q. ring. Qed.

Lemma p2_mono (a b : Z) : a <= b -> (2 ^ a <= 2 ^ b)%Q.
Proof. intros H. apply Qpower_le_compat_l; [exact H | discriminate]. Qed.

Lemma p2_inject (e : Z) : 0 <= e -> (2 ^ e == inject_Z (2 ^ e))%Q.
Proof. intros H. rewrite Zpower_Qpower by exact H. reflexivity. Qed.

Lemma p2_neg (e : Z) : e < 0 -> (2 ^ e == 1 # (Pos.pow 2 (Z.to_pos (- e))))%Q.
Proof.
  intros H. replace e with (- (- e)) at 1 by lia.
  rewrite Qpower_opp, p2_inject by lia.
  rewrite <- (Zpos_pow2 e H). reflexivity.
Qed.

Lemma F2Q_nonneg (m e : Z) : 0 <= m -> (0 <= F2Q m e)%Q.
Proof.
  intros H. unfold F2Q. apply Qmult_le_0_compat; [| apply Qlt_le_weak, p2_pos].
  rewrite Zle_Qle in H. exact H.
Qed.

Lemma F2Q_mono (m n e : Z) : m <= n -> (F2Q m e <= F2Q n e)%Q.
Proof.
  intros H. unfold F2Q. apply Qmult_le_compat_r; [| apply Qlt_le_weak, p2_pos].
  rewrite <- Zle_Qle. exact H.
Qed.

Lemma F2Q_lt (m n e : Z) : m < n -> (F2Q m e < F2Q n e)%Q.
Proof.
  intros H. unfold F2Q. apply Qmult_lt_r; [apply p2_pos |].
  rewrite <- Zlt_Qlt. exact H.
Qed.

Lemma F2Q_shift (m e p : Z) : 0 <= p -> (F2Q (m * 2 ^ p) e == F2Q m (e + p))%Q.
Proof.
  intros Hp. unfold F2Q. rewrite inject_Z_mult, p2_add, <- (p2_inject p Hp). ring.
Qed.

Lemma F2Q_succ (m e : Z) : (F2Q (m + 1) e == F2Q m e + 2 ^ e)%Q.
Proof. unfold F2Q. rewrite inject_Z_plus. change (inject_Z 1) with 1%Q. ring. Qed.

(** flooring a mantissa by [p] bits *)
Lemma F2Q_floor (m e p : Z) :
  0 <= p ->
  (F2Q (m / 2 ^ p) (e + p) <= F2Q m e /\ F2Q m e < F2Q (m / 2 ^ p + 1) (e + p))%Q.
Proof.
  intros Hp.
  assert (H2 : 0 < 2 ^ p) by (apply Z.pow_pos_nonneg; lia).
  pose proof (Z.div_mod m (2 ^ p) ltac:(lia)) as Hdm.
  pose proof (Z.mod_pos_bound m (2 ^ p) H2) as Hb.
  rewrite <- !F2Q_shift by exact Hp.
  split; [apply F2Q_mono | apply F2Q_lt]; nia.
Qed.

Lemma B2Q_F2Q (s : bool) (m : positive) (e : Z) :
  (B2Q (S754_finite s m e) == F2Q (cond_Zopp s (Zpos m)) e)%Q.
Proof.
  unfold B2Q, F2Q. destruct (0 <=? e) eqn:He.
  - apply Z.leb_le in He. rewrite inject_Z_mult, (p2_inject e He). reflexivity.
  - apply Z.leb_gt in He. rewrite (p2_neg e He).
    unfold Qeq, Qmult, inject_Z. cbn [Qnum Qden]. lia.
Qed.

(** digits *)
Lemma digits2_pos_bounds (p : positive) :
  2 ^ (Zpos (digits2_pos p) - 1) <= Zpos p < 2 ^ Zpos (digits2_pos p).
Proof.
  induction p as [p IH | p IH |]; cbn [digits2_pos].
  - rewrite Pos2Z.inj_succ.
    replace (Z.succ (Zpos (digits2_pos p)) - 1) with (Z.succ (Zpos (digits2_pos p) - 1)) by lia.
    rewrite !Z.pow_succ_r by lia. lia.
  - rewrite Pos2Z.inj_succ.
    replace (Z.succ (Zpos (digits2_pos p)) - 1) with (Z.succ (Zpos (digits2_pos p) - 1)) by lia.
    rewrite !Z.pow_succ_r by lia. lia.
  - cbn. lia.
Qed.

Lemma Zdigits2_upper (m e : Z) : 0 <= m -> (F2Q m e < 2 ^ (Zdigits2 m + e))%Q.
Proof.
  intros Hm. destruct m as [| p | p]; try lia.
  - unfold F2Q. cbn [Zdigits2]. rewrite Qmult_0_l. apply p2_pos.
  - cbn [Zdigits2]. pose proof (digits2_pos_bounds p) as [_ Hu].
    rewrite p2_add, (p2_inject (Zpos (digits2_pos p))) by lia.
    unfold F2Q. apply Qmult_lt_r; [apply p2_pos |]. rewrite <- Zlt_Qlt. exact Hu.
Qed.

Lemma Zdigits2_lower (p : positive) (e : Z) :
  (2 ^ (Zpos (digits2_pos p) - 1 + e) <= F2Q (Zpos p) e)%Q.
Proof.
  pose proof (digits2_pos_bounds p) as [Hl _].
  rewrite p2_add, (p2_inject (Zpos (digits2_pos p) - 1)) by lia.
  unfold F2Q. apply Qmult_le_compat_r; [| apply Qlt_le_weak, p2_pos].
  rewrite <- Zle_Qle. exact Hl.
Qed.

(** exponents from magnitudes *)
Lemma p2_lt_inv (a b : Z) : (2 ^ a < 2 ^ b)%Q -> a < b.
Proof.
  intros H. destruct (Z_lt_le_dec a b) as [Hlt | Hge]; [exact Hlt |].
  pose proof (p2_mono b a Hge). lra.
Qed.

(** shifting right *)
Lemma shr_1_m (mrs : shr_record) :
  0 <= shr_m mrs -> shr_m (shr_1 mrs) = shr_m mrs / 2.
Proof.
  destruct mrs as [m r s]. cbn [shr_m]. intros Hm.
  destruct m as [| [p | p |] | p]; cbn [shr_1 shr_m]; try lia; try reflexivity.
  - rewrite Pos2Z.inj_xI. apply (Z.div_unique _ _ _ 1); lia.
  - rewrite Pos2Z.inj_xO. apply (Z.div_unique _ _ _ 0); lia.
Qed.

Lemma iter_shr_m (p : positive) :
  forall mrs, 0 <= shr_m mrs ->
    shr_m (iter_pos shr_1 p mrs) = shr_m mrs / 2 ^ Zpos p.
Proof.
  assert (Hnn : forall a k, 0 <= a -> 0 <= k -> 0 <= a / 2 ^ k).
  { intros a k Ha Hk. apply Z.div_pos; [exact Ha | apply Z.pow_pos_nonneg; lia]. }
  assert (Hpp : forall k, 0 <= k -> 0 < 2 ^ k)
    by (intros; apply Z.pow_pos_nonneg; lia).
  induction p as [p IH | p IH |]; intros mrs Hm; cbn [iter_pos].
  - assert (H1 : 0 <= shr_m (shr_1 mrs))
      by (rewrite shr_1_m by exact Hm; apply Z.div_pos; lia).
    assert (H2 : 0 <= shr_m (iter_pos shr_1 p (shr_1 mrs)))
      by (rewrite IH by exact H1; apply Hnn; lia).
    rewrite (IH _ H2), (IH _ H1), (shr_1_m _ Hm).
    pose proof (Hpp (Zpos p) ltac:(lia)).
    rewrite !Z.div_div by lia.
    f_equal. change 2 with (2 ^ 1) at 1.
    rewrite <- !Z.pow_add_r by lia. f_equal. lia.
  - assert (H2 : 0 <= shr_m (iter_pos shr_1 p mrs))
      by (rewrite IH by exact Hm; apply Hnn; lia).
    rewrite (IH _ H2), (IH _ Hm).
    pose proof (Hpp (Zpos p) ltac:(lia)).
    rewrite !Z.div_div by lia.
    f_equal. rewrite <- !Z.pow_add_r by lia. f_equal. lia.
  - rewrite shr_1_m by exact Hm. reflexivity.
Qed.

Lemma shr_record_of_loc_m (m : Z) (l : location) : shr_m (shr_record_of_loc m l) = m.
Proof. destruct l as [| []]; reflexivity. Qed.

Lemma shr_spec (m e n : Z) (l : location) :
  0 <= m ->
  (n <= 0 /\ shr (shr_record_of_loc m l) e n = (shr_record_of_loc m l, e))
  \/ (0 < n /\ exists mrs, shr (shr_record_of_loc m l) e n = (mrs, e + n)
                           /\ shr_m mrs = m / 2 ^ n).
Proof.
  intros Hm. destruct n as [| p | p]; cbn [shr].
  - left. split; [lia | reflexivity].
  - right. split; [lia |]. eexists. split; [reflexivity |].
    rewrite iter_shr_m by (rewrite shr_record_of_loc_m; exact Hm).
    rewrite shr_record_of_loc_m. reflexivity.
  - left. split; [lia | reflexivity].
Qed.

Lemma rne_bounds (m : Z) (l : location) :
  m <= round_nearest_even m l <= m + 1.
Proof. destruct l as [| []]; cbn; try destruct (Z.even m); lia. Qed.

Lemma rne_exact (m : Z) :
  round_nearest_even (shr_m (shr_record_of_loc m loc_Exact))
    (loc_of_shr_record (shr_record_of_loc m loc_Exact)) = m.
Proof. reflexivity. Qed.

Lemma fexp_eq (e : Z) : fexp prec emax e = Z.max (e - 53) (-1074).
Proof. reflexivity. Qed.

Lemma p2_double (a : Z) : (2 ^ a + 2 ^ a == 2 ^ (a + 1))%Q.
Proof. rewrite p2_succ. ring. Qed.

(** second stage: renormalisation without rounding *)
Lemma renormalise_stage_value (m e : Z) :
  0 <= m ->
  exists mrs e2,
    shr_fexp prec emax m e loc_Exact = (mrs, e2)
    /\ 0 <= shr_m mrs
    /\ ((fexp prec emax (Zdigits2 m + e) <= e /\ e2 = e /\ shr_m mrs = m)
        \/ (e < e2 /\ e2 = fexp prec emax (Zdigits2 m + e)
            /\ (F2Q (shr_m mrs) e2 <= F2Q m e)%Q
            /\ (F2Q m e < F2Q (shr_m mrs + 1) e2)%Q)).
Proof.
  intros Hm. unfold shr_fexp.
  set (p := fexp prec emax (Zdigits2 m + e) - e).
  destruct (shr_spec m e p loc_Exact Hm) as [[Hp E] | [Hp [mrs [E Hs]]]].
  - exists (shr_record_of_loc m loc_Exact), e. rewrite E.
    split; [reflexivity |]. rewrite shr_record_of_loc_m.
    split; [exact Hm |]. left. subst p. repeat split; lia.
  - exists mrs, (e + p). split; [exact E |].
    assert (H2 : 0 < 2 ^ p) by (apply Z.pow_pos_nonneg; lia).
    split; [rewrite Hs; apply Z.div_pos; lia |].
    right. split; [lia |]. split; [subst p; lia |].
    rewrite Hs. apply F2Q_floor. lia.
Qed.

(** first stage: shift and round to nearest *)
Lemma round_stage_error (mx ex : Z) (lx : location) (X : Q) (K : Z) :
  0 <= mx ->
  (F2Q mx ex <= X)%Q -> (X < F2Q (mx + 1) ex)%Q ->
  (lx = loc_Exact -> X == F2Q mx ex)%Q ->
  (X < 2 ^ K)%Q -> -1021 <= K ->
  (lx <> loc_Exact \/ mx = 0 -> ex <= K - 53) ->
  exists mrs e1,
    shr_fexp prec emax mx ex lx = (mrs, e1)
    /\ let m1 := round_nearest_even (shr_m mrs) (loc_of_shr_record mrs) in
       0 <= m1
       /\ ((m1 = mx /\ e1 = ex /\ (X == F2Q mx ex)%Q /\ 0 < mx
            /\ fexp prec emax (Zdigits2 mx + ex) <= ex)
           \/ (e1 <= K - 53 /\ ex <= e1
               /\ (Qabs (F2Q m1 e1 - X) <= 2 ^ e1)%Q)).
Proof.
  intros Hm Hlo Hhi Hex HK HKmin Hin. unfold shr_fexp.
  set (p := fexp prec emax (Zdigits2 mx + ex) - ex).
  destruct (shr_spec mx ex p lx Hm) as [[Hp E] | [Hp [mrs [E Hs]]]].
  - (* no shift *)
    exists (shr_record_of_loc mx lx), ex. rewrite E. split; [reflexivity |].
    cbn zeta.
    pose proof (rne_bounds (shr_m (shr_record_of_loc mx lx))
                  (loc_of_shr_record (shr_record_of_loc mx lx))) as Hr.
    rewrite shr_record_of_loc_m in Hr |- *.
    split; [lia |].
    destruct lx as [| c].
    + destruct (Z.eq_dec mx 0) as [Hz | Hnz].
      * right. assert (Hex' := Hin (or_intror Hz)).
        split; [exact Hex' |]. split; [lia |].
        change (round_nearest_even mx (loc_of_shr_record (shr_record_of_loc mx loc_Exact))) with mx.
        rewrite (Hex eq_refl). setoid_replace (F2Q mx ex - F2Q mx ex)%Q with 0%Q by ring.
        cbn [Qabs Z.abs]. apply Qlt_le_weak, p2_pos.
      * left. change (round_nearest_even mx (loc_of_shr_record (shr_record_of_loc mx loc_Exact))) with mx.
        split; [reflexivity |]. split; [reflexivity |].
        split; [apply Hex; reflexivity |]. split; [lia |]. subst p. lia.
    + right. assert (Hex' : ex <= K - 53) by (apply Hin; left; discriminate).
      split; [exact Hex' |]. split; [lia |].
      set (m1 := round_nearest_even mx (loc_of_shr_record (shr_record_of_loc mx (loc_Inexact c)))) in *.
      apply Qabs_Qle_condition.
      pose proof (F2Q_mono mx m1 ex ltac:(lia)).
      pose proof (F2Q_mono m1 (mx + 1) ex ltac:(lia)).
      pose proof (F2Q_succ mx ex). split; lra.
  - (* shift by p > 0 *)
    exists mrs, (ex + p). split; [exact E |]. cbn zeta.
    pose proof (rne_bounds (shr_m mrs) (loc_of_shr_record mrs)) as Hr.
    set (m1 := round_nearest_even (shr_m mrs) (loc_of_shr_record mrs)) in *.
    assert (H2 : 0 < 2 ^ p) by (apply Z.pow_pos_nonneg; lia).
    assert (Hs0 : 0 <= shr_m mrs) by (rewrite Hs; apply Z.div_pos; lia).
    split; [lia |]. right.
    assert (He1 : ex + p <= K - 53).
    { subst p. rewrite fexp_eq.
      destruct mx as [| q | q]; try lia.
      - assert (Hex' := Hin (or_intror eq_refl)). cbn [Zdigits2]. lia.
      - cbn [Zdigits2].
        pose proof (Zdigits2_lower q ex) as Hl.
        assert (Hlt : (2 ^ (Zpos (digits2_pos q) - 1 + ex) < 2 ^ K)%Q) by lra.
        apply p2_lt_inv in Hlt. lia. }
    split; [exact He1 |]. split; [lia |].
    destruct (F2Q_floor mx ex p ltac:(lia)) as [Hf1 Hf2]. rewrite <- Hs in Hf1, Hf2.
    pose proof (F2Q_succ mx ex) as Hsx.
    pose proof (F2Q_succ (shr_m mrs) (ex + p)) as Hsm.
    pose proof (F2Q_mono (shr_m mrs) m1 (ex + p) ltac:(lia)).
    pose proof (F2Q_mono m1 (shr_m mrs + 1) (ex + p) ltac:(lia)).
    assert (Hup : (F2Q (mx + 1) ex <= F2Q (shr_m mrs + 1) (ex + p))%Q).
    { rewrite <- F2Q_shift by lia. apply F2Q_mono.
      rewrite Hs. pose proof (Z.div_mod mx (2 ^ p) ltac:(lia)).
      pose proof (Z.mod_pos_bound mx (2 ^ p) H2). nia. }
    apply Qabs_Qle_condition. split; lra.
Qed.


Lemma binary_round_aux_error (sx : bool) (mx ex : Z) (lx : location) (X : Q) (K : Z) :
  0 <= mx ->
  (F2Q mx ex <= X)%Q -> (X < F2Q (mx + 1) ex)%Q ->
  (lx = loc_Exact -> X == F2Q mx ex)%Q ->
  (X < 2 ^ K)%Q -> -1021 <= K <= 960 ->
  (lx <> loc_Exact \/ mx = 0 -> ex <= K - 53) ->
  exists m e,
    0 <= m
    /\ binary_round_aux prec emax sx mx ex lx = pack sx m e
    /\ e <= Z.max ex (K - 52)
    /\ (Qabs (F2Q m e - X) <= 2 ^ (K - 51))%Q.
Proof.
  intros Hm Hlo Hhi Hex HK [HKmin HKmax] Hin.
  destruct (round_stage_error mx ex lx X K Hm Hlo Hhi Hex HK HKmin Hin)
    as (mrs1 & e1 & E1 & Hm1 & Hcase).
  cbn zeta in Hm1, Hcase.
  set (m1 := round_nearest_even (shr_m mrs1) (loc_of_shr_record mrs1)) in *.
  destruct (renormalise_stage_value m1 e1 Hm1) as (mrs2 & e2 & E2 & Hm2 & Hcase2).
  unfold binary_round_aux. rewrite E1. fold m1. rewrite E2.
  exists (shr_m mrs2), e2. split; [exact Hm2 |].
  assert (Hfin : shr_m mrs2 <> 0 -> e2 <= 971 ->
      match shr_m mrs2 with
      | 0 => S754_zero sx
      | Z.pos m => if e2 <=? emax - prec then S754_finite sx m e2 else S754_infinity sx
      | Z.neg _ => S754_nan
      end = pack sx (shr_m mrs2) e2).
  { intros Hnz Hle. destruct (shr_m mrs2) as [| q | q]; try lia; cbn [pack].
    replace (e2 <=? emax - prec) with true; [reflexivity |].
    symmetry. apply Z.leb_le. unfold emax, prec. lia. }
  assert (Hzero : shr_m mrs2 = 0 ->
      match shr_m mrs2 with
      | 0 => S754_zero sx
      | Z.pos m => if e2 <=? emax - prec then S754_finite sx m e2 else S754_infinity sx
      | Z.neg _ => S754_nan
      end = pack sx (shr_m mrs2) e2).
  { intros ->. reflexivity. }
  assert (H53 : (2 ^ (K - 53) + 2 ^ (K - 53) == 2 ^ (K - 52))%Q)
    by (rewrite p2_double; replace (K - 53 + 1) with (K - 52) by lia; reflexivity).
  assert (H52 : (2 ^ (K - 52) + 2 ^ (K - 52) == 2 ^ (K - 51))%Q)
    by (rewrite p2_double; replace (K - 52 + 1) with (K - 51) by lia; reflexivity).
  pose proof (p2_pos (K - 53)) as Hp53.
  destruct Hcase as [(Em & Ee & HXe & Hpos & Hfx) | (He1 & Hex1 & Herr1)].
  - (* exact, no shift in the first stage *)
    destruct Hcase2 as [(Hf2 & Ee2 & Em2) | (Hlt & Ee2 & _)].
    + rewrite Em2, Em, Ee2, Ee in *.
      split.
      * apply Hfin; [lia |].
        destruct mx as [| q | q]; try lia.
        pose proof (Zdigits2_lower q ex) as Hl.
        assert (Hlt : (2 ^ (Zpos (digits2_pos q) - 1 + ex) < 2 ^ K)%Q) by lra.
        apply p2_lt_inv in Hlt. lia.
      * split; [lia |]. rewrite HXe.
        setoid_replace (F2Q mx ex - F2Q mx ex)%Q with 0%Q by ring.
        cbn [Qabs Z.abs]. apply Qlt_le_weak, p2_pos.
    + rewrite Em, Ee in *. lia.
  - (* rounded in the first stage *)
    assert (Hv1 : (F2Q m1 e1 < 2 ^ (K + 1))%Q).
    { apply Qabs_Qle_condition in Herr1.
      pose proof (p2_mono e1 (K - 53) He1).
      pose proof (p2_mono (K - 53) K ltac:(lia)).
      pose proof (p2_double K). lra. }
    assert (Hd : Zdigits2 m1 + e1 <= K + 1).
    { destruct m1 as [| q | q]; try lia; cbn [Zdigits2]; [lia |].
      pose proof (Zdigits2_lower q e1) as Hl.
      assert (Hlt : (2 ^ (Zpos (digits2_pos q) - 1 + e1) < 2 ^ (K + 1))%Q) by lra.
      apply p2_lt_inv in Hlt. lia. }
    destruct Hcase2 as [(Hf2 & Ee2 & Em2) | (Hlt & Ee2 & Hlo2 & Hhi2)].
    + rewrite Em2, Ee2 in *. split.
      * destruct (Z.eq_dec m1 0) as [Hz | Hnz]; [apply Hzero | apply Hfin]; lia.
      * split; [lia |].
        pose proof (p2_mono e1 (K - 53) He1).
        pose proof (p2_mono (K - 53) (K - 51) ltac:(lia)). lra.
    + assert (He2 : e2 <= K - 52) by (rewrite Ee2, fexp_eq; lia).
      split.
      * destruct (Z.eq_dec (shr_m mrs2) 0) as [Hz | Hnz]; [apply Hzero | apply Hfin]; lia.
      * split; [lia |].
        pose proof (F2Q_succ (shr_m mrs2) e2) as Hs2.
        pose proof (p2_mono e1 (K - 53) He1).
        pose proof (p2_mono e2 (K - 52) He2).
        pose proof (p2_mono (K - 53) (K - 52) ltac:(lia)).
        apply Qabs_Qle_condition in Herr1.
        apply Qabs_Qle_condition. split; lra.
Qed.


Lemma F2Q_sign (s : bool) (m e : Z) :
  (F2Q (cond_Zopp s m) e == sgnQ s * F2Q m e)%Q.
Proof.
  unfold F2Q. destruct s; cbn [cond_Zopp sgnQ]; [rewrite inject_Z_opp |]; ring.
Qed.

Lemma B2Q_pack (s : bool) (m e : Z) :
  0 <= m -> (B2Q (pack s m e) == sgnQ s * F2Q m e)%Q.
Proof.
  intros Hm. destruct m as [| p | p]; try lia; cbn [pack].
  - unfold F2Q. cbn [B2Q]. change (inject_Z 0) with 0%Q. ring.
  - rewrite B2Q_F2Q. apply F2Q_sign.
Qed.

Lemma is_finite_pack (s : bool) (m e : Z) : 0 <= m -> is_finite (pack s m e) = true.
Proof. destruct m; try lia; reflexivity. Qed.

Lemma B2Q_finite (s : bool) (m : positive) (e : Z) :
  (B2Q (S754_finite s m e) == sgnQ s * F2Q (Zpos m) e)%Q.
Proof. rewrite B2Q_F2Q. apply F2Q_sign. Qed.

Lemma sgnQ_xorb (a b : bool) : (sgnQ (xorb a b) == sgnQ a * sgnQ b)%Q.
Proof. destruct a, b; reflexivity. Qed.

Lemma sgnQ_abs (s : bool) (x : Q) : (Qabs (sgnQ s * x) == Qabs x)%Q.
Proof.
  rewrite Qabs_Qmult. destruct s; cbn [sgnQ]; change (Qabs (-1)) with 1%Q;
    change (Qabs 1) with 1%Q; ring.
Qed.

Lemma sgnQ_sq_err (s : bool) (a b : Q) :
  (Qabs (sgnQ s * a - sgnQ s * b) == Qabs (a - b))%Q.
Proof.
  setoid_replace (sgnQ s * a - sgnQ s * b)%Q with (sgnQ s * (a - b))%Q by ring.
  apply sgnQ_abs.
Qed.

Lemma F2Q_mul (m1 e1 m2 e2 : Z) :
  (F2Q (m1 * m2) (e1 + e2) == F2Q m1 e1 * F2Q m2 e2)%Q.
Proof. unfold F2Q. rewrite inject_Z_mult, p2_add. ring. Qed.

(** multiplication *)
Lemma mul_error (x y : number) (K : Z) :
  is_finite x = true -> is_finite y = true ->
  (Qabs (B2Q x * B2Q y) < 2 ^ K)%Q -> -1021 <= K <= 960 ->
  is_finite (mul x y) = true
  /\ (Qabs (B2Q (mul x y) - B2Q x * B2Q y) <= 2 ^ (K - 51))%Q.
Proof.
  intros Hx Hy HK HKr.
  assert (Hz : forall a : Q, (a == 0)%Q -> (Qabs (0 - a) <= 2 ^ (K - 51))%Q).
  { intros a Ha. rewrite Ha. cbn. apply Qlt_le_weak, p2_pos. }
  destruct x as [sx | sx | | sx mx ex]; try discriminate Hx;
    destruct y as [sy | sy | | sy my ey]; try discriminate Hy;
    try (split; [reflexivity |]; cbn [mul SFmul B2Q]; apply Hz; ring).
  unfold mul. cbn [SFmul].
  rewrite !B2Q_finite in HK |- *.
  set (X := (F2Q (Zpos mx) ex * F2Q (Zpos my) ey)%Q) in *.
  assert (HXeq : (F2Q (Zpos (mx * my)) (ex + ey) == X)%Q)
    by (rewrite Pos2Z.inj_mul; apply F2Q_mul).
  assert (HX0 : (0 <= X)%Q).
  { rewrite <- HXeq. apply F2Q_nonneg. lia. }
  assert (HKX : (X < 2 ^ K)%Q).
  { setoid_replace (sgnQ sx * F2Q (Zpos mx) ex * (sgnQ sy * F2Q (Zpos my) ey))%Q
      with (sgnQ sx * (sgnQ sy * X))%Q in HK by (unfold X; ring).
    rewrite !sgnQ_abs, Qabs_pos in HK by exact HX0. exact HK. }
  pose proof (F2Q_succ (Zpos (mx * my)) (ex + ey)) as Hs.
  pose proof (p2_pos (ex + ey)).
  destruct (binary_round_aux_error (xorb sx sy) (Zpos (mx * my)) (ex + ey) loc_Exact X K)
    as (m & e & Hm & E & _ & Herr).
  - lia.
  - rewrite HXeq. apply Qle_refl.
  - rewrite <- HXeq. rewrite Hs. lra.
  - intros _. symmetry. exact HXeq.
  - exact HKX.
  - lia.
  - intros [H' | H']; [contradiction H'; reflexivity | lia].
  - rewrite E. split; [apply is_finite_pack; exact Hm |].
    rewrite (B2Q_pack _ _ _ Hm), sgnQ_xorb.
    setoid_replace (sgnQ sx * sgnQ sy * F2Q m e
                    - sgnQ sx * F2Q (Zpos mx) ex * (sgnQ sy * F2Q (Zpos my) ey))%Q
      with (sgnQ sx * (sgnQ sy * F2Q m e) - sgnQ sx * (sgnQ sy * X))%Q
      by (unfold X; ring).
    rewrite !sgnQ_sq_err. exact Herr.
Qed.

Lemma F2Q_sub (a b e : Z) : (F2Q (a - b) e == F2Q a e - F2Q b e)%Q.
Proof.
  unfold F2Q. unfold Z.sub. rewrite inject_Z_plus, inject_Z_opp. ring.
Qed.

Lemma shl_align_value (m : positive) (e e' : Z) :
  (F2Q (Zpos (fst (shl_align m e e'))) (snd (shl_align m e e')) == F2Q (Zpos m) e)%Q
  /\ snd (shl_align m e e') = Z.min e e'.
Proof.
  unfold shl_align.
  destruct (e' - e) as [| d | d] eqn:Hd; cbn [fst snd]; try (split; [reflexivity | lia]).
  split; [| lia].
  rewrite Zpos_iter_xO.
  rewrite F2Q_shift by lia.
  replace (e' + Zpos d) with e by lia. reflexivity.
Qed.

Lemma binary_round_error (s : bool) (m : positive) (e K : Z) :
  (F2Q (Zpos m) e < 2 ^ K)%Q -> -1021 <= K <= 960 ->
  exists m' e', 0 <= m'
    /\ binary_round prec emax s m e = pack s m' e'
    /\ (Qabs (F2Q m' e' - F2Q (Zpos m) e) <= 2 ^ (K - 51))%Q.
Proof.
  intros HK HKr. unfold binary_round.
  destruct (shl_align_value m e (fexp prec emax (Zpos (digits2_pos m) + e))) as [Hv _].
  destruct (shl_align m e _) as [mz ez]. cbn [fst snd] in Hv.
  pose proof (F2Q_succ (Zpos mz) ez) as Hs.
  pose proof (p2_pos ez).
  destruct (binary_round_aux_error s (Zpos mz) ez loc_Exact (F2Q (Zpos m) e) K)
    as (m' & e' & Hm & E & _ & Herr).
  - lia.
  - rewrite Hv. apply Qle_refl.
  - rewrite Hs, Hv. lra.
  - intros _. symmetry. exact Hv.
  - exact HK.
  - lia.
  - intros [H' | H']; [contradiction H'; reflexivity | lia].
  - exists m', e'. repeat split; assumption.
Qed.

Lemma binary_normalize_error (D e K : Z) :
  (Qabs (F2Q D e) < 2 ^ K)%Q -> -1021 <= K <= 960 ->
  is_finite (binary_normalize prec emax D e false) = true
  /\ (Qabs (B2Q (binary_normalize prec emax D e false) - F2Q D e) <= 2 ^ (K - 51))%Q.
Proof.
  intros HK HKr. destruct D as [| p | p]; cbn [binary_normalize].
  - split; [reflexivity |]. unfold F2Q. cbn [B2Q].
    setoid_replace (0 - inject_Z 0 * 2 ^ e)%Q with 0%Q by (change (inject_Z 0) with 0%Q; ring).
    cbn. apply Qlt_le_weak, p2_pos.
  - rewrite Qabs_pos in HK by (apply F2Q_nonneg; lia).
    destruct (binary_round_error false p e K HK HKr) as (m' & e' & Hm & E & Herr).
    rewrite E. split; [apply is_finite_pack; exact Hm |].
    rewrite (B2Q_pack _ _ _ Hm). cbn [sgnQ].
    setoid_replace (1 * F2Q m' e' - F2Q (Zpos p) e)%Q with (F2Q m' e' - F2Q (Zpos p) e)%Q by ring.
    exact Herr.
  - assert (Hn : (F2Q (Zneg p) e == - F2Q (Zpos p) e)%Q).
    { unfold F2Q. change (Zneg p) with (- Zpos p). rewrite inject_Z_opp. ring. }
    rewrite Hn, Qabs_opp, Qabs_pos in HK by (apply F2Q_nonneg; lia).
    destruct (binary_round_error true p e K HK HKr) as (m' & e' & Hm & E & Herr).
    rewrite E. split; [apply is_finite_pack; exact Hm |].
    rewrite (B2Q_pack _ _ _ Hm), Hn. cbn [sgnQ].
    setoid_replace (-1 * F2Q m' e' - - F2Q (Zpos p) e)%Q
      with (- (F2Q m' e' - F2Q (Zpos p) e))%Q by ring.
    rewrite Qabs_opp. exact Herr.
Qed.

Lemma aligned_value (s : bool) (m : positive) (e e' : Z) :
  e' <= e ->
  (F2Q (cond_Zopp s (Zpos (fst (shl_align m e e')))) e' == B2Q (S754_finite s m e))%Q.
Proof.
  intros He. destruct (shl_align_value m e e') as [Hv Hs].
  rewrite Z.min_r in Hs by exact He. rewrite Hs in Hv.
  rewrite B2Q_finite, F2Q_sign, Hv. reflexivity.
Qed.

(** subtraction *)
Lemma sub_error (x y : number) (K : Z) :
  is_finite x = true -> is_finite y = true ->
  (Qabs (B2Q x - B2Q y) < 2 ^ K)%Q -> -1021 <= K <= 960 ->
  is_finite (sub x y) = true
  /\ (Qabs (B2Q (sub x y) - (B2Q x - B2Q y)) <= 2 ^ (K - 51))%Q.
Proof.
  intros Hx Hy HK HKr.
  assert (Hz : forall a : Q, (a == 0)%Q -> (Qabs a <= 2 ^ (K - 51))%Q).
  { intros a Ha. rewrite Ha. cbn. apply Qlt_le_weak, p2_pos. }
  destruct x as [sx | sx | | sx mx ex]; try discriminate Hx;
    destruct y as [sy | sy | | sy my ey]; try discriminate Hy.
  - split; [destruct sx, sy; reflexivity |]. apply Hz.
    destruct sx, sy; cbn; reflexivity.
  - split; [reflexivity |]. apply Hz. unfold sub. cbn [SFsub].
    rewrite !B2Q_finite. cbn [B2Q]. destruct sy; cbn [negb sgnQ]; ring.
  - split; [reflexivity |]. apply Hz. unfold sub. cbn [SFsub B2Q]. ring.
  - unfold sub. cbn [SFsub]. cbv zeta.
    set (ez := Z.min ex ey).
    set (D := cond_Zopp sx (Zpos (fst (shl_align mx ex ez)))
              - cond_Zopp sy (Zpos (fst (shl_align my ey ez)))).
    assert (HD : (F2Q D ez == B2Q (S754_finite sx mx ex) - B2Q (S754_finite sy my ey))%Q).
    { unfold D. rewrite F2Q_sub, !aligned_value by (unfold ez; lia). reflexivity. }
    rewrite <- HD in HK |- *.
    apply binary_normalize_error; assumption.
Qed.

Lemma new_location_exact (n r : Z) : new_location n r = loc_Exact -> r = 0.
Proof.
  unfold new_location, new_location_even, new_location_odd.
  destruct (Z.even n); destruct (r =? 0) eqn:E; try discriminate; lia.
Qed.

Lemma F2Q_pos (m : positive) (e : Z) : (0 < F2Q (Zpos m) e)%Q.
Proof.
  unfold F2Q. apply Qmult_lt_0_compat; [| apply p2_pos].
  change 0%Q with (inject_Z 0). rewrite <- Zlt_Qlt. lia.
Qed.

Lemma F2Q_add (a b e : Z) : (F2Q (a + b) e == F2Q a e + F2Q b e)%Q.
Proof. unfold F2Q. rewrite inject_Z_plus. ring. Qed.

Lemma F2Q_scale (a b e : Z) : (F2Q (a * b) e == inject_Z a * F2Q b e)%Q.
Proof. unfold F2Q. rewrite inject_Z_mult. ring. Qed.

(** the quotient of two positive fractions *)
Lemma div_core (sz : bool) (mx my : positive) (ex ey : Z) (X : Q) (K : Z) :
  (X * F2Q (Zpos my) ey == F2Q (Zpos mx) ex)%Q ->
  (X < 2 ^ K)%Q -> -1021 <= K <= 51 ->
  exists m e, 0 <= m
    /\ (let '(mz, ez, lz) := SFdiv_core_binary prec emax (Zpos mx) ex (Zpos my) ey in
        binary_round_aux prec emax sz mz ez lz) = pack sz m e
    /\ e < 0
    /\ (Qabs (F2Q m e - X) <= 2 ^ (K - 51))%Q.
Proof.
  intros HX HK HKr.
  pose proof (F2Q_pos mx ex) as Hxp. pose proof (F2Q_pos my ey) as Hyp.
  assert (HX0 : (0 < X)%Q).
  { destruct (Qlt_le_dec 0 X) as [H | H]; [exact H |].
    exfalso. assert ((X * F2Q (Zpos my) ey <= 0)%Q); [| lra].
    setoid_replace 0%Q with (0 * F2Q (Zpos my) ey)%Q by ring.
    apply Qmult_le_compat_r; lra. }
  unfold SFdiv_core_binary.
  set (d1 := Zdigits2 (Zpos mx)). set (d2 := Zdigits2 (Zpos my)).
  set (e' := Z.min (fexp prec emax (d1 + ex - (d2 + ey))) (ex - ey)).
  set (s := ex - ey - e').
  assert (Hs : 0 <= s) by (unfold s, e'; lia).
  set (m' := match s with Z0 => Zpos mx | Zpos _ => Z.shiftl (Zpos mx) s | Zneg _ => 0 end).
  assert (Hm' : m' = Zpos mx * 2 ^ s).
  { unfold m'. clearbody s. destruct s as [| p | p]; try lia.
    rewrite Z.shiftl_mul_pow2 by lia. reflexivity. }
  pose proof (Z_div_mod m' (Zpos my) eq_refl) as Hdm.
  destruct (Z.div_eucl m' (Zpos my)) as [q r]. destruct Hdm as [Hq Hr].
  assert (Hq0 : 0 <= q).
  { assert (0 <= m') by (rewrite Hm'; apply Z.mul_nonneg_nonneg; [lia | apply Z.pow_nonneg; lia]).
    nia. }
  (* the exact quotient, scaled *)
  assert (Hval : (X * inject_Z (Zpos my) == F2Q m' e')%Q).
  { rewrite Hm', F2Q_shift by exact Hs.
    replace (e' + s) with (ex + - ey) by (unfold s; lia).
    unfold F2Q in HX |- *.
    pose proof (p2_pos ey) as Hey.
    rewrite p2_add.
    assert (Hinv : (2 ^ (- ey) * 2 ^ ey == 1)%Q).
    { rewrite <- p2_add. replace (- ey + ey) with 0 by lia. reflexivity. }
    setoid_replace (X * inject_Z (Zpos my))%Q
      with (X * (inject_Z (Zpos my) * 2 ^ ey) * 2 ^ (- ey))%Q.
    - rewrite HX. ring.
    - setoid_replace (X * (inject_Z (Zpos my) * 2 ^ ey) * 2 ^ (- ey))%Q
        with (X * inject_Z (Zpos my) * (2 ^ (- ey) * 2 ^ ey))%Q by ring.
      rewrite Hinv. ring. }
  assert (Hmy : (0 < inject_Z (Zpos my))%Q).
  { change 0%Q with (inject_Z 0). rewrite <- Zlt_Qlt. lia. }
  assert (Hlo : (F2Q q e' <= X)%Q).
  { apply (Qmult_le_r _ _ (inject_Z (Zpos my))); [exact Hmy |].
    rewrite Hval. rewrite Qmult_comm, <- F2Q_scale. apply F2Q_mono. nia. }
  assert (Hhi : (X < F2Q (q + 1) e')%Q).
  { apply (Qmult_lt_r _ _ (inject_Z (Zpos my))); [exact Hmy |].
    rewrite Hval. rewrite (Qmult_comm (F2Q (q + 1) e')), <- F2Q_scale. apply F2Q_lt. nia. }
  assert (He' : e' <= K - 53).
  { pose proof (Zdigits2_lower mx ex) as Hl.
    pose proof (Zdigits2_upper (Zpos my) ey ltac:(lia)) as Hu.
    fold d2 in Hu. change (Zpos (digits2_pos mx)) with d1 in Hl.
    assert (Hlt : (2 ^ (d1 - 1 + ex) < 2 ^ (K + (d2 + ey)))%Q).
    { rewrite (p2_add K).
      apply Qle_lt_trans with (1 := Hl). rewrite <- HX.
      apply Qle_lt_trans with (X * 2 ^ (d2 + ey))%Q.
      - rewrite !(Qmult_comm X). apply Qmult_le_compat_r; lra.
      - apply Qmult_lt_compat_r; [apply p2_pos | exact HK]. }
    apply p2_lt_inv in Hlt.
    unfold e'. rewrite fexp_eq. lia. }
  destruct (binary_round_aux_error sz q e' (new_location (Zpos my) r) X K)
    as (m & e & Hm & E & Hexp & Herr).
  - exact Hq0.
  - exact Hlo.
  - exact Hhi.
  - intros Hloc. apply new_location_exact in Hloc. subst r.
    apply (Qmult_inj_r _ _ (inject_Z (Zpos my))); [lra |].
    rewrite Hval, Qmult_comm, <- F2Q_scale. rewrite Hq. 
    replace (Zpos my * q + 0) with (Zpos my * q) by lia. reflexivity.
  - exact HK.
  - lia.
  - intros _. exact He'.
  - exists m, e. repeat split; try assumption. lia.
Qed.

Lemma sgnQ_sq (s : bool) : (sgnQ s * sgnQ s == 1)%Q.
Proof. destruct s; reflexivity. Qed.

(** division by a non-zero number *)
Lemma div_error (x : number) (sy : bool) (my : positive) (ey : Z) (v : Q) (K : Z) :
  is_finite x = true ->
  (v * B2Q (S754_finite sy my ey) == B2Q x)%Q ->
  (Qabs v < 2 ^ K)%Q -> -1021 <= K <= 51 ->
  exists s m e, 0 <= m
    /\ div x (S754_finite sy my ey) = pack s m e
    /\ e < 0
    /\ (Qabs (B2Q (div x (S754_finite sy my ey)) - v) <= 2 ^ (K - 51))%Q.
Proof.
  intros Hx Hv HK HKr.
  pose proof (F2Q_pos my ey) as Hyp.
  rewrite B2Q_finite in Hv.
  destruct x as [sx | sx | | sx mx ex]; try discriminate Hx.
  - exists (xorb sx sy), 0, (-1). unfold div. cbn [SFdiv pack B2Q].
    repeat split; try lia.
    assert (Hv0 : (v == 0)%Q).
    { cbn [B2Q] in Hv.
      assert (H : (v * F2Q (Zpos my) ey == 0)%Q).
      { setoid_replace (v * F2Q (Zpos my) ey)%Q
          with (sgnQ sy * (v * (sgnQ sy * F2Q (Zpos my) ey)))%Q
          by (rewrite <- (Qmult_1_l (v * F2Q (Zpos my) ey)), <- (sgnQ_sq sy); ring).
        rewrite Hv. ring. }
      apply Qmult_integral in H. destruct H as [H | H]; [exact H | lra]. }
    rewrite Hv0. cbn. apply Qlt_le_weak, p2_pos.
  - rewrite B2Q_finite in Hv.
    set (X := (sgnQ sx * sgnQ sy * v)%Q).
    assert (HXv : (v == sgnQ sx * sgnQ sy * X)%Q).
    { unfold X.
      setoid_replace (sgnQ sx * sgnQ sy * (sgnQ sx * sgnQ sy * v))%Q
        with ((sgnQ sx * sgnQ sx) * (sgnQ sy * sgnQ sy) * v)%Q by ring.
      rewrite !sgnQ_sq. ring. }
    assert (HX : (X * F2Q (Zpos my) ey == F2Q (Zpos mx) ex)%Q).
    { unfold X.
      setoid_replace (sgnQ sx * sgnQ sy * v * F2Q (Zpos my) ey)%Q
        with (sgnQ sx * (v * (sgnQ sy * F2Q (Zpos my) ey)))%Q by ring.
      rewrite Hv.
      setoid_replace (sgnQ sx * (sgnQ sx * F2Q (Zpos mx) ex))%Q
        with ((sgnQ sx * sgnQ sx) * F2Q (Zpos mx) ex)%Q by ring.
      rewrite sgnQ_sq. ring. }
    assert (HXK : (X < 2 ^ K)%Q).
    { apply Qle_lt_trans with (2 := HK). rewrite HXv.
      rewrite <- Qmult_assoc, !sgnQ_abs. apply Qle_Qabs. }
    destruct (div_core (xorb sx sy) mx my ex ey X K HX HXK HKr)
      as (m & e & Hm & E & He & Herr).
    exists (xorb sx sy), m, e. unfold div. cbn [SFdiv].
    rewrite E. repeat split; try assumption.
    rewrite (B2Q_pack _ _ _ Hm), sgnQ_xorb.
    rewrite HXv at 1.
    setoid_replace (sgnQ sx * sgnQ sy * F2Q m e - sgnQ sx * sgnQ sy * X)%Q
      with (sgnQ sx * (sgnQ sy * F2Q m e) - sgnQ sx * (sgnQ sy * X))%Q by ring.
    rewrite !sgnQ_sq_err. exact Herr.
Qed.

(** addition *)
Lemma add_error (x y : number) (K : Z) :
  is_finite x = true -> is_finite y = true ->
  (Qabs (B2Q x + B2Q y) < 2 ^ K)%Q -> -1021 <= K <= 960 ->
  is_finite (add x y) = true
  /\ (Qabs (B2Q (add x y) - (B2Q x + B2Q y)) <= 2 ^ (K - 51))%Q.
Proof.
  intros Hx Hy HK HKr.
  assert (Hz : forall a : Q, (a == 0)%Q -> (Qabs a <= 2 ^ (K - 51))%Q).
  { intros a Ha. rewrite Ha. cbn. apply Qlt_le_weak, p2_pos. }
  destruct x as [sx | sx | | sx mx ex]; try discriminate Hx;
    destruct y as [sy | sy | | sy my ey]; try discriminate Hy.
  - split; [destruct sx, sy; reflexivity |]. apply Hz.
    destruct sx, sy; cbn; reflexivity.
  - split; [reflexivity |]. apply Hz. unfold add. cbn [SFadd B2Q]. ring.
  - split; [reflexivity |]. apply Hz. unfold add. cbn [SFadd B2Q]. ring.
  - unfold add. cbn [SFadd]. cbv zeta.
    set (ez := Z.min ex ey).
    set (D := cond_Zopp sx (Zpos (fst (shl_align mx ex ez)))
              + cond_Zopp sy (Zpos (fst (shl_align my ey ez)))).
    assert (HD : (F2Q D ez == B2Q (S754_finite sx mx ex) + B2Q (S754_finite sy my ey))%Q).
    { unfold D. rewrite F2Q_add, !aligned_value by (unfold ez; lia). reflexivity. }
    rewrite <- HD in HK |- *.
    apply binary_normalize_error; assumption.
Qed.

Lemma nearest_integer_unique (v : Q) (n n' : Z) :
  nearest_integer v n -> nearest_integer v n' -> n = n'.
Proof.
  unfold nearest_integer. intros [H1 H2] [H3 H4].
  assert (A : (inject_Z n < inject_Z (n' + 1))%Q) by (rewrite inject_Z_plus; change (inject_Z 1) with 1%Q; lra).
  assert (B : (inject_Z n' < inject_Z (n + 1))%Q) by (rewrite inject_Z_plus; change (inject_Z 1) with 1%Q; lra).
  rewrite <- Zlt_Qlt in A, B. lia.
Qed.

Lemma nearest_integer_near (v : Q) (n : Z) :
  (Qabs (v - inject_Z n) < 1 # 2)%Q -> nearest_integer v n.
Proof.
  intros H. apply Qabs_Qlt_condition in H. unfold nearest_integer. lra.
Qed.

Lemma Math_round_pack (s : bool) (m e : Z) :
  0 <= m -> e < 0 ->
  exists n, nearest_integer (B2Q (pack s m e)) n
    /\ Math_round (pack s m e) = integer_number s n.
Proof.
  intros Hm He. destruct m as [| p | p]; try lia; cbn [pack].
  - exists 0. split; [| reflexivity]. cbn [B2Q]. unfold nearest_integer. change (inject_Z 0) with 0%Q. lra.
  - exists (round_half_up (cond_Zopp s (Zpos p)) e). cbn [Math_round B2Q].
    replace (0 <=? e) with false by (symmetry; apply Z.leb_gt; exact He).
    split; [| reflexivity].
    apply nearest_fraction. rewrite (Zpos_pow2 e He).
    apply round_half_up_spec. exact He.
Qed.

Lemma B2Q_of_Z (n : Z) : Z.abs n < 2 ^ 52 -> (B2Q (of_Z n) == inject_Z n)%Q.
Proof.
  intros Hn.
  assert (Hp : forall (s : bool) (p : positive), Zpos p < 2 ^ 52 ->
             (B2Q (binary_round prec emax s p 0) == sgnQ s * inject_Z (Zpos p))%Q).
  { intros s p Hlt.
    pose proof (digits2_pos_bounds p) as [Hlo _].
    assert (Hd : Zpos (digits2_pos p) < 53).
    { destruct (Z_lt_le_dec (Zpos (digits2_pos p)) 53) as [H | H]; [exact H |].
      exfalso. assert (2 ^ 52 <= 2 ^ (Zpos (digits2_pos p) - 1))
        by (apply Z.pow_le_mono_r; lia). lia. }
    rewrite (of_Z_small s p Hd), B2Q_finite, Zpos_iter_xO.
    rewrite F2Q_shift by lia.
    replace (Zpos (digits2_pos p) - 53 + Zpos (Z.to_pos (53 - Zpos (digits2_pos p)))) with 0 by lia.
    unfold F2Q. change (2 ^ 0)%Q with 1%Q. ring. }
  unfold of_Z. destruct n as [| p | p]; cbn [binary_normalize].
  - reflexivity.
  - rewrite Hp by lia. cbn [sgnQ]. ring.
  - rewrite Hp by lia. cbn [sgnQ]. change (Zneg p) with (- Zpos p).
    rewrite inject_Z_opp. ring.
Qed.

Lemma is_finite_of_Z (n : Z) : Z.abs n < 2 ^ 52 -> is_finite (of_Z n) = true.
Proof.
  intros Hn.
  assert (Hp : forall (s : bool) (p : positive), Zpos p < 2 ^ 52 ->
             is_finite (binary_round prec emax s p 0) = true).
  { intros s p Hlt.
    pose proof (digits2_pos_bounds p) as [Hlo _].
    assert (Hd : Zpos (digits2_pos p) < 53).
    { destruct (Z_lt_le_dec (Zpos (digits2_pos p)) 53) as [H | H]; [exact H |].
      exfalso. assert (2 ^ 52 <= 2 ^ (Zpos (digits2_pos p) - 1))
        by (apply Z.pow_le_mono_r; lia). lia. }
    rewrite (of_Z_small s p Hd). reflexivity. }
  unfold of_Z. destruct n as [| p | p]; cbn [binary_normalize];
    [reflexivity | apply Hp; lia | apply Hp; lia].
Qed.

Lemma is_finite_pack' (s : bool) (m e : Z) (x : number) :
  0 <= m -> x = pack s m e -> is_finite x = true.
Proof. intros Hm ->. apply is_finite_pack; exact Hm. Qed.

Lemma B2Q_sign_abs (s : bool) (m : positive) (e : Z) :
  (B2Q (S754_finite s m e) == sgnQ s * B2Q (S754_finite false m e))%Q.
Proof. rewrite !B2Q_finite. cbn [sgnQ]. ring. Qed.

Lemma round1_error (x : number) (K : Z) :
  is_finite x = true ->
  (Qabs (B2Q x) + (1 # 20) < 2 ^ K)%Q -> -1021 <= K <= 51 ->
  is_finite (round1 x) = true
  /\ (Qabs (B2Q (round1 x) - B2Q x) <= (1 # 20) + 2 ^ (K - 51))%Q.
Proof.
  intros Hx HK HKr.
  pose proof (p2_pos (K - 51)) as Heps.
  destruct x as [sx | sx | | s m e]; try discriminate Hx.
  - split; [reflexivity |]. cbn. lra.
  - unfold round1. cbn [toFixed1].
    rewrite Qabs_B2Q in HK.
    set (a := B2Q (S754_finite false m e)) in *.
    assert (Ha0 : (0 <= a)%Q).
    { unfold a. rewrite B2Q_finite. cbn [sgnQ].
      pose proof (F2Q_pos m e). lra. }
    destruct (at_least_1e21 m e) eqn:Hbig.
    { exfalso. apply at_least_1e21_spec in Hbig. fold a in Hbig.
      pose proof (p2_mono K 51 ltac:(lia)) as Hm.
      rewrite (p2_inject 51) in Hm by lia.
      assert (Hc : (inject_Z (10 ^ 21) < inject_Z (2 ^ 51))%Q) by lra.
      rewrite <- Zlt_Qlt in Hc. vm_compute in Hc. discriminate Hc. }
    cbn [Number_fixed1].
    pose proof (tenths_nearest m e) as Hn. fold a in Hn.
    unfold nearest_integer in Hn.
    set (t := tenths m e) in *.
    rewrite (B2Q_sign_abs s m e). fold a.
    destruct t as [| p | p] eqn:Ht.
    + cbn [of_ratio]. split; [reflexivity |]. cbn [B2Q].
      change (inject_Z 0) with 0%Q in Hn.
      setoid_replace (0 - sgnQ s * a)%Q with (sgnQ s * (0 - a))%Q by ring.
      rewrite sgnQ_abs. apply Qabs_Qle_condition. lra.
    + change (of_ratio s (Zpos p) 10)
        with (div (S754_finite s p 0) (S754_finite false 10 0)).
      set (v := (sgnQ s * (inject_Z (Zpos p) / 10))%Q).
      assert (Hv : (v * B2Q (S754_finite false 10 0) == B2Q (S754_finite s p 0))%Q).
      { rewrite !B2Q_finite. unfold v, F2Q. cbn [sgnQ].
        change (2 ^ 0)%Q with 1%Q. change (inject_Z 10) with 10%Q. field. }
      assert (Hvd : (Qabs (sgnQ s * (inject_Z (Zpos p) / 10) - sgnQ s * a) <= 1 # 20)%Q).
      { rewrite sgnQ_sq_err. apply Qabs_Qle_condition.
        unfold Qdiv. change (/ 10)%Q with (1 # 10)%Q. lra. }
      assert (HvK : (Qabs v < 2 ^ K)%Q).
      { unfold v. rewrite sgnQ_abs. apply Qabs_Qlt_condition.
        unfold Qdiv. change (/ 10)%Q with (1 # 10)%Q. lra. }
      destruct (div_error (S754_finite s p 0) false 10 0 v K eq_refl Hv HvK HKr)
        as (s' & m' & e' & Hm' & E & _ & Herr).
      split; [apply (is_finite_pack' s' m' e'); assumption |].
      set (r := B2Q (div (S754_finite s p 0) (S754_finite false 10 0))) in *.
      fold v in Hvd.
      setoid_replace (r - sgnQ s * a)%Q with ((r - v) + (v - sgnQ s * a))%Q by ring.
      eapply Qle_trans; [apply Qabs_triangle |]. lra.
    + exfalso.
      assert (H : (inject_Z (Zneg p) <= inject_Z (-1))%Q) by (rewrite <- Zle_Qle; lia).
      change (inject_Z (-1)) with (-1)%Q in H. lra.
Qed.

Lemma quot_bound (v sg b c B : Q) :
  (v * sg == b)%Q -> (0 < c)%Q -> (c <= sg)%Q -> (- B <= b <= B)%Q ->
  (- B <= c * v <= B)%Q.
Proof.
  intros E Hc Hs Hb. rewrite <- E in Hb. clear E.
  destruct (Qlt_le_dec v 0) as [Hv | Hv]; nra.
Qed.

Lemma prod_bound (x sg c S : Q) :
  (- c <= x <= c)%Q -> (0 <= sg <= S)%Q -> (- (c * S) <= x * sg <= c * S)%Q.
Proof. intros Hx Hs. nra. Qed.

Lemma eps_bound (K : Z) : K <= 17 -> (2 ^ (K - 51) <= 1 # 10000000000)%Q.
Proof.
  intros HK. apply Qle_trans with (2 ^ (-34))%Q; [apply p2_mono; lia |].
  vm_compute. discriminate.
Qed.

Lemma Qabs_le_iff (x y : Q) : (Qabs x <= y)%Q <-> (- y <= x <= y)%Q.
Proof. apply Qabs_Qle_condition. Qed.

Lemma Qabs_lt_iff (x y : Q) : (Qabs x < y)%Q <-> (- y < x < y)%Q.
Proof. apply Qabs_Qlt_condition. Qed.

Lemma second_count (W s o0 : number) :
  is_finite W = true -> (Qabs (B2Q W) <= 1000)%Q ->
  is_finite s = true -> ((1001 # 10000) <= B2Q s <= 1000)%Q ->
  is_finite o0 = true -> (Qabs (B2Q o0) <= 1000)%Q ->
  ~ (B2Q (Math_round (div (sub W o0) s)) == 0)%Q ->
  Math_round (div (sub W (round1 (sub W (mul (Math_round (div (sub W o0) s)) s)))) s)
  = Math_round (div (sub W o0) s).
Proof.
  intros HW HWb Hs Hsb Ho Hob Hnz.
  destruct s as [ss | ss | | ss ms es]; try discriminate Hs;
    [exfalso; cbn [B2Q] in Hsb; lra |].
  set (s := S754_finite ss ms es) in *.
  set (sg := B2Q s) in *. set (w := B2Q W) in *. set (a := B2Q o0) in *.
  apply Qabs_le_iff in HWb, Hob.
  (* W - o0 *)
  destruct (sub_error W o0 11 HW Ho) as [HA HAe]; [| lia |].
  { apply Qabs_lt_iff. fold w a. change (2 ^ 11)%Q with 2048%Q. lra. }
  fold w a in HAe.
  pose proof (eps_bound 11 ltac:(lia)) as E11.
  set (A := sub W o0) in *. set (bA := B2Q A) in *.
  apply Qabs_le_iff in HAe.
  (* (W - o0) / s *)
  set (v1 := (bA / sg)%Q).
  assert (Hv1 : (v1 * sg == bA)%Q) by (unfold v1; field; lra).
  pose proof (quot_bound v1 sg bA (1001 # 10000) 2001 Hv1 ltac:(lra) ltac:(lra) ltac:(lra)) as Hv1b.
  destruct (div_error A ss ms es v1 15 HA Hv1) as (s1 & m1 & e1 & Hm1 & Eq1 & He1 & Hq1e);
    [| lia |].
  { apply Qabs_lt_iff. change (2 ^ 15)%Q with 32768%Q. lra. }
  fold s in Eq1, Hq1e.
  pose proof (eps_bound 15 ltac:(lia)) as E15.
  set (q1 := div A s) in *. set (bq1 := B2Q q1) in *.
  apply Qabs_le_iff in Hq1e.
  (* the girder count *)
  destruct (Math_round_pack s1 m1 e1 Hm1 He1) as (z1 & Hz1 & En1).
  rewrite <- Eq1 in Hz1, En1. fold bq1 in Hz1.
  assert (Hz1nz : z1 <> 0).
  { intros ->. apply Hnz. rewrite En1. reflexivity. }
  assert (En1' : Math_round q1 = of_Z z1).
  { rewrite En1. unfold integer_number.
    destruct (z1 =? 0) eqn:E; [apply Z.eqb_eq in E; contradiction | reflexivity]. }
  set (zt := inject_Z z1) in *.
  unfold nearest_integer in Hz1. fold zt in Hz1.
  assert (Hz1b : Z.abs z1 < 2 ^ 52).
  { assert (H1 : (inject_Z z1 < inject_Z 32768)%Q) by (change (inject_Z 32768) with 32768%Q; fold zt; lra).
    assert (H2 : (inject_Z (-32768) < inject_Z z1)%Q) by (change (inject_Z (-32768)) with (-32768)%Q; fold zt; lra).
    rewrite <- Zlt_Qlt in H1, H2.
    assert (32768 < 2 ^ 52) by (vm_compute; reflexivity). lia. }
  pose proof (B2Q_of_Z z1 Hz1b) as Hn1v. fold zt in Hn1v.
  pose proof (is_finite_of_Z z1 Hz1b) as Hn1f.
  rewrite En1'.
  set (n1 := of_Z z1) in *.
  (* n1 * s *)
  set (p := (zt * sg)%Q).
  pose proof (prod_bound (zt - v1) sg 1 1000 ltac:(lra) ltac:(lra)) as Hpd.
  assert (Hpeq : ((zt - v1) * sg == p - bA)%Q) by (unfold p; rewrite <- Hv1; ring).
  rewrite Hpeq in Hpd.
  destruct (mul_error n1 s 12 Hn1f eq_refl) as [HP HPe]; [| lia |].
  { apply Qabs_lt_iff. rewrite Hn1v. fold sg p. change (2 ^ 12)%Q with 4096%Q. lra. }
  rewrite Hn1v in HPe. fold sg p in HPe.
  pose proof (eps_bound 12 ltac:(lia)) as E12.
  set (P := mul n1 s) in *. set (bP := B2Q P) in *.
  apply Qabs_le_iff in HPe.
  (* W - n1 * s *)
  destruct (sub_error W P 12 HW HP) as [HR HRe]; [| lia |].
  { apply Qabs_lt_iff. fold w bP. change (2 ^ 12)%Q with 4096%Q. lra. }
  fold w bP in HRe.
  set (R := sub W P) in *. set (bR := B2Q R) in *.
  apply Qabs_le_iff in HRe.
  (* round1 *)
  destruct (round1_error R 12 HR) as [HO HOe]; [| lia |].
  { fold bR. change (2 ^ 12)%Q with 4096%Q.
    destruct (Qlt_le_dec bR 0) as [Hneg | Hpos];
      [rewrite Qabs_neg by lra | rewrite Qabs_pos by lra]; lra. }
  fold bR in HOe.
  set (o1 := round1 R) in *. set (bo := B2Q o1) in *.
  apply Qabs_le_iff in HOe.
  (* W - o1 *)
  destruct (sub_error W o1 13 HW HO) as [HD HDe]; [| lia |].
  { apply Qabs_lt_iff. fold w bo. change (2 ^ 13)%Q with 8192%Q. lra. }
  fold w bo in HDe.
  pose proof (eps_bound 13 ltac:(lia)) as E13.
  set (D := sub W o1) in *. set (bD := B2Q D) in *.
  apply Qabs_le_iff in HDe.
  (* (W - o1) / s *)
  set (v2 := (bD / sg)%Q).
  assert (Hv2 : (v2 * sg == bD)%Q) by (unfold v2; field; lra).
  pose proof (quot_bound v2 sg bD (1001 # 10000) 6000 Hv2 ltac:(lra) ltac:(lra) ltac:(lra)) as Hv2b.
  destruct (div_error D ss ms es v2 16 HD Hv2) as (s2 & m2 & e2 & Hm2 & Eq2 & He2 & Hq2e);
    [| lia |].
  { apply Qabs_lt_iff. change (2 ^ 16)%Q with 65536%Q. lra. }
  fold s in Eq2, Hq2e.
  pose proof (eps_bound 16 ltac:(lia)) as E16.
  set (q2 := div D s) in *. set (bq2 := B2Q q2) in *.
  apply Qabs_le_iff in Hq2e.
  (* the second count is the first *)
  assert (Hdiff : ((v2 - zt) * sg == bD - p)%Q) by (unfold p; rewrite <- Hv2; ring).
  pose proof (quot_bound (v2 - zt) sg (bD - p) (1001 # 10000) (50001 # 1000000) Hdiff
                ltac:(lra) ltac:(lra) ltac:(lra)) as Hclose.
  destruct (Math_round_pack s2 m2 e2 Hm2 He2) as (z2 & Hz2 & En2).
  rewrite <- Eq2 in Hz2, En2. fold bq2 in Hz2.
  assert (Hnear : nearest_integer bq2 z1).
  { unfold nearest_integer. fold zt. lra. }
  rewrite (nearest_integer_unique _ _ _ Hz2 Hnear) in En2.
  rewrite En2. unfold integer_number.
  destruct (z1 =? 0) eqn:E; [apply Z.eqb_eq in E; contradiction | reflexivity].
Qed.

Lemma B2Q_lit_5 : (B2Q lit_5 == 5)%Q.
Proof. vm_compute. reflexivity. Qed.

Lemma overall_width_bounds (cw : number) :
  is_finite cw = true -> (Qabs (B2Q cw) <= 990)%Q ->
  is_finite (add cw lit_5) = true /\ (Qabs (B2Q (add cw lit_5)) <= 1000)%Q.
Proof.
  intros Hf Hb. apply Qabs_le_iff in Hb.
  destruct (add_error cw lit_5 10 Hf eq_refl) as [HW HWe]; [| lia |].
  { apply Qabs_lt_iff. rewrite B2Q_lit_5. change (2 ^ 10)%Q with 1024%Q. lra. }
  split; [exact HW |].
  rewrite B2Q_lit_5 in HWe. apply Qabs_le_iff in HWe.
  pose proof (eps_bound 10 ltac:(lia)).
  apply Qabs_le_iff. lra.
Qed.

End RoundingError.

(* ================================================================== *)
(** ** The solver operations, one by one *)
(* ================================================================== *)

Section Operations.

Import JS Solver Examples.
Open Scope js_scope.

(** The messages of the four errors are pairwise distinct and none is
    the empty string that marks success. *)
Lemma message_injective (a b : SolverError) : message a = message b -> a = b.
Proof. destruct a, b; cbn; intros H; try reflexivity; discriminate H. Qed.

Lemma message_not_empty (a : SolverError) : message a <> ""%string.
Proof. destruct a; discriminate. Qed.

Ltac branch :=
  match goal with
  | |- context [if ?c then _ else _] => destruct c eqn:?
  end.

Ltac settle :=
  cbn [geometry geometryError carriagewayWidth showModal
       setGeometry setGeometryError message];
  repeat split; intros;
  repeat match goal with
         | H : _ /\ _ |- _ => destruct H
         end;
  try reflexivity; try discriminate; try congruence.

(** C3. [initialize], that is [openGeometryModal] on a numeric
    carriageway width, takes the overall width to be the width plus 5
    and stores spacing 2.5, girders = floor((overallWidth - 2) / spacing)
    and overhang = round1(overallWidth - girders * spacing), clearing the
    error and raising no alert; the girder count is the floor and the
    overhang the one-decimal rounding in the specification's sense.  For
    the width 7.5 the overall width is 12.5 and the triple is
    (2.5, 4, 2.5); for the width 7.75 the raw overhang 2.75 is stored as
    2.8. *)
Theorem C3_openGeometryModal_default_triple :
  (forall (og : option Geometry) (err : string) (modal : bool) (cw : number),
      let W := cw + lit_5 in
      let n := Math_floor ((W - lit_2) / lit_2_5) in
      let o := round1 (W - n * lit_2_5) in
      openGeometryModal (mkState og err (Num cw) modal) =
        (mkState (Some (mkGeometry lit_2_5 n o)) "" (Num cw) true, None)
      /\ Spec.floor_of ((W - lit_2) / lit_2_5) n
      /\ Spec.one_decimal (W - n * lit_2_5) o)
  /\ dec 75 10 + lit_5 = dec 125 10
  /\ openGeometryModal typed_7_5 =
       (mkState (Some (mkGeometry (dec 25 10) (of_Z 4) (dec 25 10)))
          "" (Num (dec 75 10)) true,
        None)
  /\ openGeometryModal (setCarriagewayWidth (Numeral (dec 775 100)) initialState) =
       (mkState (Some (mkGeometry (dec 25 10) (of_Z 4) (dec 28 10)))
          "" (Num (dec 775 100)) true,
        None)
  /\ dec 775 100 + lit_5 - of_Z 4 * dec 25 10 = dec 275 100.
Proof.
  split; [| repeat split; vm_compute; reflexivity].
  intros. split; [reflexivity |].
  split; [apply Math_floor_floor | apply round1_one_decimal].
Qed.

(** C2. In a state that holds a triple and a numeric width,
    [updateFromSpacing s] reports "Invalid spacing" exactly when
    [s <= 0] or [s >= overallWidth]; otherwise it keeps the current
    overhang to compute girders = Math.round((overallWidth - overhang)/s)
    and then overhang' = round1(overallWidth - girders * s), reports
    "Geometry constraints violated" exactly when overhang' < 0, and
    stores (s, girders, overhang') exactly when it is not.  The girder
    count is the quotient rounded to the nearest integer and the overhang
    the one-decimal rounding, in the specification's sense.  Spacing 13
    against the overall width 12.5 is rejected as invalid spacing;
    spacing 2.45 stores 4 girders (from 4.08...) and overhang 2.7, and
    spacing 2.2 stores 5 girders (from 4.54...) and overhang 1.5. *)
Theorem C2_updateFromSpacing_contract :
  (forall (g : Geometry) (err : string) (modal : bool) (cw s : number),
      let st := mkState (Some g) err (Num cw) modal in
      let W := cw + lit_5 in
      let n := Math_round ((W - overhang g) / s) in
      let o := round1 (W - n * s) in
      let invalid := (s <=? lit_0) || (s >=? W) in
      (geometryError (updateFromSpacing s st) = message InvalidSpacing
         <-> invalid = true)
      /\ (geometryError (updateFromSpacing s st) = message ConstraintViolated
         <-> invalid = false /\ (o <? lit_0) = true)
      /\ (updateFromSpacing s st =
            mkState (Some (mkGeometry s n o)) "" (Num cw) modal
         <-> invalid = false /\ (o <? lit_0) = false)
      /\ Spec.round_to_nearest_int ((W - overhang g) / s) n
      /\ Spec.one_decimal (W - n * s) o)
  /\ geometryError (updateFromSpacing (of_Z 13) base) = message InvalidSpacing
  /\ geometry (updateFromSpacing (of_Z 13) base) = geometry base
  /\ updateFromSpacing (dec 245 100) base =
       mkState (Some (mkGeometry (dec 245 100) (of_Z 4) (dec 27 10)))
         "" (Num (dec 75 10)) true
  /\ updateFromSpacing (dec 22 10) base =
       mkState (Some (mkGeometry (dec 22 10) (of_Z 5) (dec 15 10)))
         "" (Num (dec 75 10)) true.
Proof.
  split; [| repeat split; vm_compute; reflexivity].
  intros. subst invalid o n W st.
  split; [| split; [| split; [| split;
    [apply Math_round_nearest | apply round1_one_decimal]]]];
  unfold updateFromSpacing; cbn [geometry carriagewayWidth];
  (branch; [| branch]; settle).
Qed.

(** C4. In a state that holds a triple and a numeric width,
    [updateFromGirders n] reports "Number of girders must be positive"
    exactly when [n <= 0]; otherwise it keeps the spacing, computes
    overhang = round1(overallWidth - spacing * n), reports "Geometry
    constraints violated" exactly when overhang < 0 or
    overhang >= overallWidth, and stores (spacing, n, overhang) exactly
    when neither holds.  The overhang is the one-decimal rounding in the
    specification's sense.  From (2.5, 4, 2.5) at overall width 12.5,
    five girders are accepted with overhang 0.0; from (2.9, 4, 1), three
    girders store the overhang 3.8, rounded from 12.5 - 2.9 * 3. *)
Theorem C4_updateFromGirders_contract :
  (forall (g : Geometry) (err : string) (modal : bool) (cw n : number),
      let st := mkState (Some g) err (Num cw) modal in
      let W := cw + lit_5 in
      let o := round1 (W - spacing g * n) in
      let out := (o <? lit_0) || (o >=? W) in
      (geometryError (updateFromGirders n st) = message InvalidGirderCount
         <-> (n <=? lit_0) = true)
      /\ (geometryError (updateFromGirders n st) = message ConstraintViolated
         <-> (n <=? lit_0) = false /\ out = true)
      /\ (updateFromGirders n st =
            mkState (Some (mkGeometry (spacing g) n o)) "" (Num cw) modal
         <-> (n <=? lit_0) = false /\ out = false)
      /\ Spec.one_decimal (W - spacing g * n) o)
  /\ geometry base = Some (mkGeometry (dec 25 10) (of_Z 4) (dec 25 10))
  /\ updateFromGirders (of_Z 5) base =
       mkState (Some (mkGeometry (dec 25 10) (of_Z 5) (S754_zero false)))
         "" (Num (dec 75 10)) true
  /\ updateFromGirders (of_Z 3)
       (mkState (Some (mkGeometry (dec 29 10) (of_Z 4) (of_Z 1))) ""
          (Num (dec 75 10)) true) =
       mkState (Some (mkGeometry (dec 29 10) (of_Z 3) (dec 38 10)))
         "" (Num (dec 75 10)) true
  /\ dec 75 10 + lit_5 - dec 29 10 * of_Z 3 <> dec 38 10.
Proof.
  split; [| repeat split; try (vm_compute; reflexivity);
            vm_compute; discriminate].
  intros. subst out o W st.
  split; [| split; [| split; [| apply round1_one_decimal]]];
  unfold updateFromGirders; cbn [geometry carriagewayWidth];
  (branch; [| branch]; settle).
Qed.

(** C5. In a state that holds a triple and a numeric width,
    [updateFromOverhang v] reports "Invalid overhang" exactly when
    [v < 0] or [v >= overallWidth]; otherwise it keeps the girder count,
    computes spacing = round1((overallWidth - v) / girders), reports
    "Geometry constraints violated" exactly when spacing <= 0, and
    stores (spacing, girders, v) exactly when it is positive.  The
    spacing is the one-decimal rounding in the specification's sense:
    from (2.5, 4, 2.5) at overall width 12.5, overhang 1 stores spacing
    2.9, rounded from 11.5 / 4 = 2.875, and overhang 2.45 stores spacing
    2.5, rounded from 2.5125. *)
Theorem C5_updateFromOverhang_contract :
  (forall (g : Geometry) (err : string) (modal : bool) (cw v : number),
      let st := mkState (Some g) err (Num cw) modal in
      let W := cw + lit_5 in
      let s := round1 ((W - v) / girders g) in
      let invalid := (v <? lit_0) || (v >=? W) in
      (geometryError (updateFromOverhang v st) = message InvalidOverhang
         <-> invalid = true)
      /\ (geometryError (updateFromOverhang v st) = message ConstraintViolated
         <-> invalid = false /\ (s <=? lit_0) = true)
      /\ (updateFromOverhang v st =
            mkState (Some (mkGeometry s (girders g) v)) "" (Num cw) modal
         <-> invalid = false /\ (s <=? lit_0) = false)
      /\ Spec.one_decimal ((W - v) / girders g) s)
  /\ updateFromOverhang (of_Z 1) base =
       mkState (Some (mkGeometry (dec 29 10) (of_Z 4) (of_Z 1)))
         "" (Num (dec 75 10)) true
  /\ (dec 75 10 + lit_5 - of_Z 1) / of_Z 4 = dec 2875 1000
  /\ updateFromOverhang (dec 245 100) base =
       mkState (Some (mkGeometry (dec 25 10) (of_Z 4) (dec 245 100)))
         "" (Num (dec 75 10)) true
  /\ updateFromOverhang (of_Z 13) base =
       mkState (Some (mkGeometry (dec 25 10) (of_Z 4) (dec 25 10)))
         "Invalid overhang" (Num (dec 75 10)) true.
Proof.
  split; [| repeat split; vm_compute; reflexivity].
  intros. subst invalid s W st.
  split; [| split; [| split; [| apply round1_one_decimal]]];
  unfold updateFromOverhang; cbn [geometry carriagewayWidth];
  (branch; [| branch]; settle).
Qed.

End Operations.

(* ================================================================== *)
(** ** Error paths *)
(* ================================================================== *)

Section ErrorPaths.

Import JS Solver Examples.
Open Scope js_scope.

Lemma setGeometryError_same (st : State) :
  setGeometryError (geometryError st) st = st.
Proof. destruct st; reflexivity. Qed.

Ltac split_handler :=
  match goal with
  | |- context [if ?c then _ else _] => destruct c eqn:?
  end.

(** An edit either leaves the state alone, or stores one of the four
    error messages and nothing else, or clears the message. *)
Lemma apply_edit_outcome (e : Edit) (st : State) :
  apply_edit e st = st \/
  (exists err, apply_edit e st = setGeometryError (message err) st) \/
  geometryError (apply_edit e st) = ""%string.
Proof.
  destruct e; cbn [apply_edit];
    unfold updateFromSpacing, updateFromGirders, updateFromOverhang;
    destruct (geometry st), (carriagewayWidth st); auto;
    repeat split_handler; auto; right; left.
  - exists InvalidSpacing; reflexivity.
  - exists ConstraintViolated; reflexivity.
  - exists InvalidGirderCount; reflexivity.
  - exists ConstraintViolated; reflexivity.
  - exists InvalidOverhang; reflexivity.
  - exists ConstraintViolated; reflexivity.
Qed.

(** C6. Whenever an edit ends with one of the four error messages on
    display, the triple is the one held before the edit, and the state
    differs from the prior state in the error message alone. *)
Theorem C6_error_keeps_prior_triple :
  forall (e : Edit) (st : State) (err : SolverError),
    geometryError (apply_edit e st) = message err ->
    geometry (apply_edit e st) = geometry st /\
    apply_edit e st = setGeometryError (message err) st.
Proof.
  intros e st err H.
  destruct (apply_edit_outcome e st) as [Hsame | [[err' Hfail] | Hok]].
  - rewrite Hsame in *. rewrite <- H, setGeometryError_same. auto.
  - rewrite Hfail in *. cbn in H. rewrite H. auto.
  - rewrite Hok in H. symmetry in H. now apply message_not_empty in H.
Qed.

Lemma C6_error_keeps_prior_triple_witness :
  geometryError (apply_edit (EditSpacing (of_Z 13)) base) = message InvalidSpacing
  /\ geometry (apply_edit (EditSpacing (of_Z 13)) base) = geometry base.
Proof.
  assert (H : geometryError (apply_edit (EditSpacing (of_Z 13)) base)
              = message InvalidSpacing) by (vm_compute; reflexivity).
  split; [exact H |].
  exact (proj1 (C6_error_keeps_prior_triple _ _ _ H)).
Defined.

(** C10. While no triple is held, or the carriageway width is blank,
    each of the three edits returns the state it was given: the triple,
    the error message and every other cell are untouched. *)
Theorem C10_uninitialised_edit_is_noop :
  forall (e : Edit) (st : State),
    geometry st = None \/ carriagewayWidth st = Blank ->
    apply_edit e st = st.
Proof.
  intros e st [H | H]; destruct e; cbn [apply_edit];
    unfold updateFromSpacing, updateFromGirders, updateFromOverhang;
    rewrite H; try reflexivity;
    destruct (geometry st); reflexivity.
Qed.

Lemma C10_uninitialised_edit_is_noop_witness :
  (geometry typed_7_5 = None \/ carriagewayWidth typed_7_5 = Blank)
  /\ apply_edit (EditGirders (of_Z 5)) typed_7_5 = typed_7_5.
Proof.
  assert (H : geometry typed_7_5 = None \/ carriagewayWidth typed_7_5 = Blank)
    by (left; reflexivity).
  split; [exact H |].
  exact (C10_uninitialised_edit_is_noop (EditGirders (of_Z 5)) typed_7_5 H).
Defined.

End ErrorPaths.

(* ================================================================== *)
(** ** The geometry invariant and repeated edits *)
(* ================================================================== *)

Section Invariant.

Import JS Solver Examples.
Open Scope js_scope.

Ltac on_guard :=
  match goal with
  | H : context [if ?c then _ else _] |- _ => destruct c eqn:?
  end.

Ltac bounds :=
  repeat match goal with
         | H : (_ || _)%bool = false |- _ =>
             apply orb_false_iff in H; destruct H
         end.

(** C1 fails.  Typing spacing 0.1 and then overhang 0 into the dialog
    opened on a width of 7.5 succeeds and stores (0.1, 100, 0), although
    round1(12.5 - 0.1 * 100) is 2.5: the invariant does not hold. *)
Lemma C1_overhang_edit_breaks_equation :
  carriagewayWidth fine_spacing = Num (dec 75 10)
  /\ (lit_0 <? dec 75 10 + lit_5) = true
  /\ succeeds (OpEdit (EditOverhang (of_Z 0))) fine_spacing
  /\ geometry (run (OpEdit (EditOverhang (of_Z 0))) fine_spacing) =
       Some (mkGeometry (dec 1 10) (of_Z 100) (of_Z 0))
  /\ round1 (dec 75 10 + lit_5 - dec 1 10 * of_Z 100) = dec 25 10
  /\ ~ invariant (dec 75 10 + lit_5)
         (mkGeometry (dec 1 10) (of_Z 100) (of_Z 0)).
Proof.
  split; [vm_compute; reflexivity |].
  split; [vm_compute; reflexivity |].
  split; [split; [vm_compute; discriminate
                 | split; [vm_compute; discriminate | vm_compute; reflexivity]] |].
  split; [vm_compute; reflexivity |].
  split; [vm_compute; reflexivity |].
  unfold invariant. vm_compute. discriminate.
Qed.

(** One girder and then spacing 6 stores (6, 0, 12.5): no girders, and
    an overhang equal to the overall width. *)
Lemma spacing_edit_can_store_zero_girders :
  geometryError one_then_wide = ""%string
  /\ geometry one_then_wide =
       Some (mkGeometry (of_Z 6) (of_Z 0) (dec 125 10)).
Proof. split; vm_compute; reflexivity. Qed.

(** A girder count of 1.5 is stored as typed. *)
Lemma girders_edit_stores_fraction :
  updateFromGirders (dec 15 10) base =
    mkState (Some (mkGeometry (dec 25 10) (dec 15 10) (dec 88 10)))
      "" (Num (dec 75 10)) true.
Proof. vm_compute. reflexivity. Qed.

(** C1, as amended.  Let an operation succeed in a state whose width is
    the number [cw], write W = cw + 5, and suppose neither W nor any
    number of the stored triple is NaN.  Then: opening the dialog stores
    spacing 2.5 > 0, girders = floor((W - 2) / 2.5), an integer when
    finite, and overhang = round1(W - girders * spacing); a spacing edit
    stores girders = Math.round((W - old overhang) / spacing), an integer
    when finite, overhang = round1(W - girders * spacing), 0 <= overhang
    and 0 < spacing < W; a girders edit keeps the spacing and stores
    overhang = round1(W - spacing * girders), 0 <= overhang < W and
    0 < girders; an overhang edit keeps the girders and stores
    spacing = round1((W - overhang) / girders), 0 <= overhang < W and
    0 < spacing. *)
Theorem C1_operation_postcondition :
  forall (st : State) (op : Operation) (cw : number) (g' : Geometry),
    carriagewayWidth st = Num cw ->
    succeeds op st ->
    geometry (run op st) = Some g' ->
    numbers (cw + lit_5) g' ->
    postcondition (cw + lit_5) (geometry st) op g'.
Proof.
  intros st op cw g' Hcw [_ Hok] Hg' (HW & Hs & Hn & Ho).
  destruct op as [| [v | v | v]]; cbn [run apply_edit] in *.
  - unfold openGeometryModal in Hg'. rewrite Hcw in Hg'.
    cbn in Hg'. injection Hg' as <-. cbn [spacing girders overhang postcondition].
    repeat split. apply Math_floor_integer.
  - destruct Hok as [Hsome Herr].
    destruct (geometry st) as [g |] eqn:Hg; [| contradiction].
    unfold updateFromSpacing in *. rewrite Hg, Hcw in *.
    repeat on_guard; cbn in Herr; try discriminate.
    cbn in Hg'. injection Hg' as <-.
    cbn [spacing girders overhang postcondition] in *. bounds.
    repeat split.
    + apply not_lt_is_ge; auto using lit_0_not_nan.
    + apply not_le_is_gt; auto using lit_0_not_nan.
    + apply not_le_is_gt; auto.
    + apply Math_round_integer.
  - destruct Hok as [Hsome Herr].
    destruct (geometry st) as [g |] eqn:Hg; [| contradiction].
    unfold updateFromGirders in *. rewrite Hg, Hcw in *.
    repeat on_guard; cbn in Herr; try discriminate.
    cbn in Hg'. injection Hg' as <-.
    cbn [spacing girders overhang postcondition] in *. bounds.
    repeat split.
    + apply not_lt_is_ge; auto using lit_0_not_nan.
    + apply not_le_is_gt; auto.
    + apply not_le_is_gt; auto using lit_0_not_nan.
  - destruct Hok as [Hsome Herr].
    destruct (geometry st) as [g |] eqn:Hg; [| contradiction].
    unfold updateFromOverhang in *. rewrite Hg, Hcw in *.
    repeat on_guard; cbn in Herr; try discriminate.
    cbn in Hg'. injection Hg' as <-.
    cbn [spacing girders overhang postcondition] in *. bounds.
    repeat split.
    + apply not_lt_is_ge; auto using lit_0_not_nan.
    + apply not_le_is_gt; auto.
    + apply not_le_is_gt; auto using lit_0_not_nan.
Qed.

Lemma C1_operation_postcondition_witness :
  postcondition (dec 75 10 + lit_5) (geometry base)
    (OpEdit (EditGirders (of_Z 5)))
    (mkGeometry (dec 25 10) (of_Z 5) (of_Z 0)).
Proof.
  apply (C1_operation_postcondition base (OpEdit (EditGirders (of_Z 5)))
           (dec 75 10) (mkGeometry (dec 25 10) (of_Z 5) (of_Z 0))).
  - vm_compute; reflexivity.
  - split; [vm_compute; discriminate |].
    split; [vm_compute; discriminate | vm_compute; reflexivity].
  - vm_compute; reflexivity.
  - repeat split; vm_compute; reflexivity.
Defined.

(** C7 fails.  The triple (2.5, 4, 2.45), reached by typing overhang 2.45
    into the dialog opened on a width of 7.5, satisfies the invariant;
    spacing 0.01 is then accepted and stores (0.01, 1005, 2.4), and the
    same spacing applied again stores (0.01, 1010, 2.4). *)
Lemma C7_second_application_differs :
  geometry odd_overhang =
    Some (mkGeometry (dec 25 10) (of_Z 4) (dec 245 100))
  /\ invariant (dec 75 10 + lit_5)
       (mkGeometry (dec 25 10) (of_Z 4) (dec 245 100))
  /\ geometryError once = ""%string
  /\ geometry once = Some (mkGeometry (dec 1 100) (of_Z 1005) (dec 24 10))
  /\ geometry twice = Some (mkGeometry (dec 1 100) (of_Z 1010) (dec 24 10))
  /\ ~ idempotent_at (dec 1 100) odd_overhang.
Proof.
  split; [vm_compute; reflexivity |].
  split; [vm_compute; reflexivity |].
  split; [vm_compute; reflexivity |].
  split; [vm_compute; reflexivity |].
  split; [vm_compute; reflexivity |].
  intros H.
  assert (Hok : geometryError (updateFromSpacing (dec 1 100) odd_overhang)
                = ""%string) by (vm_compute; reflexivity).
  specialize (H Hok). vm_compute in H. discriminate H.
Qed.

(** C7, as amended.  Idempotence holds away from the small spacings.
    Take a state that holds a triple and a carriageway width of at most
    990 in magnitude, a spacing [s] from 0.1001 to 1000, and a stored
    overhang of at most 1000 in magnitude, all finite; and let the
    girder count that [updateFromSpacing s] computes,
    Math.round((W - overhang) / s), not be zero.  Then the second
    application of [updateFromSpacing s] returns the state the first
    one returned, whether the first was accepted or rejected. *)
Theorem C7_updateFromSpacing_idempotent :
  forall (st : State) (g : Geometry) (cw s : number),
    geometry st = Some g ->
    carriagewayWidth st = Num cw ->
    is_finite cw = true -> (Qabs (Spec.B2Q cw) <= 990)%Q ->
    is_finite s = true -> ((1001 # 10000) <= Spec.B2Q s <= 1000)%Q ->
    is_finite (overhang g) = true ->
    (Qabs (Spec.B2Q (overhang g)) <= 1000)%Q ->
    ~ (Spec.B2Q (Math_round ((cw + lit_5 - overhang g) / s)%js) == 0)%Q ->
    updateFromSpacing s (updateFromSpacing s st) = updateFromSpacing s st
    /\ idempotent_at s st.
Proof.
  intros st g cw s Hg Hcw Hcf Hcb Hsf Hsb Hof Hob Hnz.
  assert (Hfix : updateFromSpacing s (updateFromSpacing s st)
                 = updateFromSpacing s st).
  { destruct (overall_width_bounds cw Hcf Hcb) as [HW HWb].
    pose proof (second_count (add cw lit_5) s (overhang g)
                  HW HWb Hsf Hsb Hof Hob Hnz) as Hn.
    destruct st as [g0 err cw0 modal].
    cbn [geometry carriagewayWidth] in Hg, Hcw. subst g0 cw0.
    unfold updateFromSpacing at 2 3. cbn [geometry carriagewayWidth].
    set (W := add cw lit_5) in *.
    destruct (le s lit_0 || ge s W) eqn:G1.
    - unfold updateFromSpacing, setGeometryError.
      cbn [geometry carriagewayWidth].
      fold W. rewrite G1. reflexivity.
    - set (n1 := Math_round (div (sub W (overhang g)) s)) in *.
      set (o1 := round1 (sub W (mul n1 s))) in *.
      destruct (lt o1 lit_0) eqn:G2.
      + unfold updateFromSpacing, setGeometryError.
        cbn [geometry carriagewayWidth].
        fold W. rewrite G1. fold n1 o1. rewrite G2. reflexivity.
      + unfold updateFromSpacing, setGeometryError, setGeometry.
        cbn [geometry carriagewayWidth overhang]. fold W. rewrite G1.
        fold o1 in Hn. rewrite Hn. fold o1. rewrite G2. reflexivity. }
  split; [exact Hfix |].
  intros _. rewrite Hfix. reflexivity.
Qed.

Lemma C7_updateFromSpacing_idempotent_witness :
  updateFromSpacing (dec 22 10) (updateFromSpacing (dec 22 10) base)
    = updateFromSpacing (dec 22 10) base
  /\ geometry (updateFromSpacing (dec 22 10) base)
     = Some (mkGeometry (dec 22 10) (of_Z 5) (dec 15 10)).
Proof.
  split; [| vm_compute; reflexivity].
  apply (C7_updateFromSpacing_idempotent base base_triple
           (dec 75 10) (dec 22 10)).
  - vm_compute. reflexivity.
  - vm_compute. reflexivity.
  - vm_compute. reflexivity.
  - vm_compute. intros H; discriminate H.
  - vm_compute. reflexivity.
  - split; vm_compute; intros H; discriminate H.
  - vm_compute. reflexivity.
  - vm_compute. intros H; discriminate H.
  - vm_compute. intros H; discriminate H.
Defined.

(** The girder count must not be zero for this: with a width of 7.55
    and a stored overhang of 12.49, spacing 0.2 is accepted and stores
    the count +0, and applied again it stores -0. *)
Lemma zero_count_changes_sign :
  let st := mkState (Some (mkGeometry (dec 25 10) (of_Z 4) (dec 1249 100)))
              "" (Num (dec 755 100)) true in
  geometryError (updateFromSpacing (dec 2 10) st) = ""%string
  /\ option_map girders (geometry (updateFromSpacing (dec 2 10) st))
     = Some (S754_zero false)
  /\ option_map girders
       (geometry (updateFromSpacing (dec 2 10)
                    (updateFromSpacing (dec 2 10) st)))
     = Some (S754_zero true).
Proof. repeat split; vm_compute; reflexivity. Qed.

End Invariant.

(* ================================================================== *)
(** ** The query sent for custom parameters *)
(* ================================================================== *)

Section Query.

Import JS CustomParams.

(** Whatever the user does, the query carries for each number field
    either [null] or what [JSON.stringify] makes of the conversion of the
    text the field shows. *)
Lemma sent_is_null_or_converted (evs : list FormEvent) :
  let f := run evs in
  let q := fetchClosestLocation (params f) in
  (wind_speed q = None
   \/ wind_speed q = JSON_number (Some (Number_value (windField f))))
  /\ (min_temp q = None
      \/ min_temp q = JSON_number (Some (Number_value (minField f))))
  /\ (max_temp q = None
      \/ max_temp q = JSON_number (Some (Number_value (maxField f)))).
Proof.
  unfold run.
  assert (Hgen : forall f0,
    ((windSpeed (params f0) = None
      \/ windSpeed (params f0) = Some (Number_value (windField f0)))
     /\ (minTemp (params f0) = None
         \/ minTemp (params f0) = Some (Number_value (minField f0)))
     /\ (maxTemp (params f0) = None
         \/ maxTemp (params f0) = Some (Number_value (maxField f0)))) ->
    let f := fold_left step evs f0 in
    (windSpeed (params f) = None
     \/ windSpeed (params f) = Some (Number_value (windField f)))
    /\ (minTemp (params f) = None
        \/ minTemp (params f) = Some (Number_value (minField f)))
    /\ (maxTemp (params f) = None
        \/ maxTemp (params f) = Some (Number_value (maxField f)))).
  { induction evs as [| ev evs IH]; intros f0 H0; [exact H0 |].
    cbn [fold_left]. apply IH.
    destruct H0 as (Hw & Hlo & Hhi).
    destruct ev; cbn in *; repeat split; auto. }
  destruct (Hgen initialForm) as (Hw & Hlo & Hhi); [cbn; auto |].
  cbn zeta. unfold fetchClosestLocation.
  cbn [wind_speed min_temp max_temp].
  repeat split.
  - destruct Hw as [-> | ->]; auto.
  - destruct Hlo as [-> | ->]; auto.
  - destruct Hhi as [-> | ->]; auto.
Qed.

(** A number field the user never typed into is sent as [null]. *)
Lemma untouched_wind_speed_is_null (evs : list FormEvent) :
  (forall v, ~ In (TypeWindSpeed v) evs) ->
  wind_speed (fetchClosestLocation (params (run evs))) = None.
Proof.
  unfold run.
  assert (Hgen : forall f0,
    windSpeed (params f0) = None ->
    (forall v, ~ In (TypeWindSpeed v) evs) ->
    windSpeed (params (fold_left step evs f0)) = None).
  { induction evs as [| ev evs IH]; intros f0 H0 Hno; [exact H0 |].
    cbn [fold_left]. apply IH.
    - destruct ev; cbn; auto.
      exfalso. apply (Hno v). left. reflexivity.
    - intros v Hin. apply (Hno v). right. exact Hin. }
  intros Hno. unfold fetchClosestLocation. cbn [wind_speed].
  rewrite (Hgen initialForm eq_refl Hno). reflexivity.
Qed.

(** C8.  Typing 5 into the wind-speed field and then clearing it leaves
    the field empty, yet the query sent carries wind_speed = 0: a value
    the user did not supply, so the query is not faithful to the form. *)
Theorem C8_cleared_field_is_sent_as_zero :
  windField (run [TypeWindSpeed (Numeral (of_Z 5)); TypeWindSpeed EmptyValue])
    = EmptyValue
  /\ wind_speed
       (fetchClosestLocation
          (params (run [TypeWindSpeed (Numeral (of_Z 5));
                        TypeWindSpeed EmptyValue])))
     = Some (S754_zero false)
  /\ ~ query_is_faithful
         (run [TypeWindSpeed (Numeral (of_Z 5)); TypeWindSpeed EmptyValue]).
Proof.
  split; [reflexivity |]. split; [reflexivity |].
  intros (Hw & _).
  specialize (Hw (S754_zero false) eq_refl). discriminate Hw.
Qed.

End Query.

(* ================================================================== *)
(** ** The matcher on an empty catalog *)
(* ================================================================== *)

Section EmptyCatalog.

Import LocationMatcher.

(** C9.  Whatever the scale constants and the query, [findClosest] on
    the empty catalog is the explicit no-match outcome. *)
Theorem C9_empty_catalog_is_no_match :
  forall (referenceSpan tempSpan zoneWeight windWeight tempWeight : Q)
         (q : MatchQuery),
    findClosest referenceSpan tempSpan zoneWeight windWeight tempWeight q []
      = NoMatch.
Proof. intros. reflexivity. Qed.

(** The no-match outcome is neither a rejection with an error nor a
    match that carries a location. *)
Lemma no_match_is_not_a_location (r : MatchResult) :
  r = NoMatch ->
  (forall e, r <> Rejected e) /\ (forall l c, r <> Match l c).
Proof. intros ->. split; intros; discriminate. Qed.

End EmptyCatalog.

(* ================================================================== *)
(** ** How the edits compose *)
(* ================================================================== *)

Section Composition.

Import JS Solver Examples Dialog.
Open Scope js_scope.

Ltac on_if :=
  match goal with
  | |- context [if ?c then _ else _] => destruct c eqn:?
  end.

Ltac cells :=
  cbn [geometry geometryError carriagewayWidth showModal
       setGeometry setGeometryError setShowModal spacing girders overhang].

Ltac reuse :=
  repeat match goal with
         | H : ?c = _ |- context [if ?c then _ else _] => rewrite H
         end.

(** The message on display plays no part in what an edit computes. *)
Lemma apply_edit_ignores_message (e : Edit) (m : string) (st : State) :
  geometry st <> None -> carriagewayWidth st <> Blank ->
  apply_edit e (setGeometryError m st) = apply_edit e st.
Proof.
  destruct st as [[g |] err [| cw] modal]; cbn [geometry carriagewayWidth];
    intros Hg Hw; try contradiction.
  destruct e; cbn [apply_edit];
    unfold updateFromSpacing, updateFromGirders, updateFromOverhang;
    cells; repeat on_if; reflexivity.
Qed.

(** Applying the same girder count twice is the same as applying it
    once, in every state and for every count. *)
Theorem updateFromGirders_idempotent :
  forall (n : number) (st : State),
    updateFromGirders n (updateFromGirders n st) = updateFromGirders n st.
Proof.
  intros n [[g |] err [| cw] modal]; try reflexivity.
  unfold updateFromGirders. cells.
  on_if; [cells; reuse; reflexivity |].
  on_if; cells; reuse; reflexivity.
Qed.

(** Applying the same overhang twice is the same as applying it once, in
    every state and for every overhang. *)
Theorem updateFromOverhang_idempotent :
  forall (v : number) (st : State),
    updateFromOverhang v (updateFromOverhang v st) = updateFromOverhang v st.
Proof.
  intros v [[g |] err [| cw] modal]; try reflexivity.
  unfold updateFromOverhang. cells.
  on_if; [cells; reuse; reflexivity |].
  on_if; cells; reuse; reflexivity.
Qed.

(** Without a triple or without a numeric width an edit does nothing. *)
Lemma edit_needs_triple_and_width (e : Edit) (st : State) :
  geometry st = None \/ carriagewayWidth st = Blank ->
  apply_edit e st = st.
Proof.
  destruct st as [[g |] err [| cw] modal]; cbn [geometry carriagewayWidth];
    intros [H | H]; try discriminate H; destruct e; reflexivity.
Qed.

(** An edit that ends with an error message leaves no trace on the next
    edit: the next edit gives the state it would have given had the
    rejected one never been made. *)
Theorem rejected_edit_leaves_no_trace :
  forall (e1 e2 : Edit) (st : State),
    geometryError (apply_edit e1 st) <> ""%string ->
    apply_edit e2 (apply_edit e1 st) = apply_edit e2 st.
Proof.
  intros e1 e2 st Hrej.
  destruct (geometry st) as [g |] eqn:Hg;
    [destruct (carriagewayWidth st) as [| cw] eqn:Hw |];
    try (rewrite (edit_needs_triple_and_width e1 st) by auto; reflexivity).
  destruct (apply_edit_outcome e1 st) as [Hsame | [[err Hfail] | Hok]].
  - rewrite Hsame. reflexivity.
  - rewrite Hfail. apply apply_edit_ignores_message; congruence.
  - contradiction.
Qed.

Lemma rejected_edit_leaves_no_trace_witness :
  apply_edit (EditGirders (of_Z 5)) (apply_edit (EditSpacing (of_Z 13)) base)
    = apply_edit (EditGirders (of_Z 5)) base.
Proof.
  apply rejected_edit_leaves_no_trace.
  vm_compute. discriminate.
Defined.

(** [openGeometryModal] does not see a preceding edit. *)
Lemma open_after_edit (e : Edit) (st : State) :
  openGeometryModal (apply_edit e st) = openGeometryModal st.
Proof.
  destruct st as [[g |] err [| cw] modal]; destruct e; try reflexivity;
    cbn [apply_edit];
    unfold updateFromSpacing, updateFromGirders, updateFromOverhang;
    cells; repeat on_if; reflexivity.
Qed.

(** Reopening the dialog discards whatever was edited: after any
    sequence of edits, [openGeometryModal] gives what it gives without
    them. *)
Theorem reopening_discards_edits :
  forall (es : list Edit) (st : State),
    openGeometryModal (apply_edits es st) = openGeometryModal st.
Proof.
  unfold apply_edits.
  induction es as [| e es IH]; intros st; cbn [fold_left]; [reflexivity |].
  rewrite IH. apply open_after_edit.
Qed.

(** One edit leaves the width and the visibility of the dialog alone. *)
Lemma edit_frame (e : Edit) (st : State) :
  carriagewayWidth (apply_edit e st) = carriagewayWidth st
  /\ showModal (apply_edit e st) = showModal st
  /\ (geometry (apply_edit e st) = None <-> geometry st = None).
Proof.
  destruct st as [[g |] err [| cw] modal]; destruct e;
    cbn [apply_edit];
    unfold updateFromSpacing, updateFromGirders, updateFromOverhang;
    cells; repeat on_if; cells; repeat split; intros; congruence.
Qed.

(** Edits touch the triple and the message only: after any sequence of
    edits the width and the visibility of the dialog are what they were,
    and a triple is held exactly if one was held before. *)
Theorem edits_keep_width_and_dialog :
  forall (es : list Edit) (st : State),
    carriagewayWidth (apply_edits es st) = carriagewayWidth st
    /\ showModal (apply_edits es st) = showModal st
    /\ (geometry (apply_edits es st) = None <-> geometry st = None).
Proof.
  unfold apply_edits.
  induction es as [| e es IH]; intros st; cbn [fold_left].
  - repeat split; auto.
  - destruct (IH (apply_edit e st)) as (Hw & Hm & Hg).
    destruct (edit_frame e st) as (Hw' & Hm' & Hg').
    rewrite Hw, Hm, Hg. auto.
Qed.

Lemma spacing_positive (x : number) :
  (x <=? lit_0) = false ->
  (x <=? lit_0) = false /\ (is_nan x = false -> (lit_0 <? x) = true).
Proof.
  intros H. split; [exact H |].
  intros Hx. apply not_le_is_gt; auto using lit_0_not_nan.
Qed.

Lemma well_formed_intro (og : option Geometry) (err : string)
    (w : NumberOrBlank) (modal : bool) :
  (err = ""%string \/ exists e, err = message e) ->
  (err <> ""%string -> og <> None) ->
  (modal = true -> og <> None) ->
  (forall g, og = Some g -> (spacing g <=? lit_0) = false) ->
  well_formed (mkState og err w modal).
Proof.
  intros H1 H2 H3 H4. unfold well_formed. cells.
  split; [exact H1 |]. split; [exact H2 |]. split; [exact H3 |].
  intros g Hg. apply spacing_positive. exact (H4 g Hg).
Qed.

(** In a state that holds a triple whose spacing is not [<= 0], an edit
    either stores an error message or stores a triple of which the same
    is true. *)
Lemma edit_keeps_spacing (e : Edit) (g : Geometry) (err : string)
    (cw : number) (modal : bool) :
  (spacing g <=? lit_0) = false ->
  (exists m, apply_edit e (mkState (Some g) err (Num cw) modal)
             = mkState (Some g) (message m) (Num cw) modal)
  \/ (exists g', apply_edit e (mkState (Some g) err (Num cw) modal)
                 = mkState (Some g') "" (Num cw) modal
                 /\ (spacing g' <=? lit_0) = false).
Proof.
  intros Hold.
  destruct e; cbn [apply_edit];
    unfold updateFromSpacing, updateFromGirders, updateFromOverhang; cells.
  - on_if; [left; exists InvalidSpacing; reflexivity |].
    on_if; [left; exists ConstraintViolated; reflexivity |].
    right. eexists. split; [reflexivity |]. cells.
    match goal with H : (_ || _)%bool = false |- _ =>
      apply orb_false_iff in H; destruct H as [H _]; exact H end.
  - on_if; [left; exists InvalidGirderCount; reflexivity |].
    on_if; [left; exists ConstraintViolated; reflexivity |].
    right. eexists. split; [reflexivity |]. cells. exact Hold.
  - on_if; [left; exists InvalidOverhang; reflexivity |].
    on_if; [left; exists ConstraintViolated; reflexivity |].
    right. eexists. split; [reflexivity |]. cells. assumption.
Qed.

Lemma handle_well_formed (st : State) (ev : Event) :
  well_formed st -> well_formed (handle st ev).
Proof.
  destruct st as [og err w modal].
  intros (Hmsg & Herr & Hmod & Hsp). cells.
  assert (Hle : forall g, og = Some g -> (spacing g <=? lit_0) = false)
    by (intros g Hg; apply (Hsp g Hg)).
  destruct ev as [v | | e |]; cbn [handle].
  - apply well_formed_intro; assumption.
  - unfold openGeometryModal. cells.
    destruct w as [| cw]; cbn [fst]; cells.
    + apply well_formed_intro; assumption.
    + apply well_formed_intro; auto; try discriminate.
      intros g Hg. injection Hg as <-. vm_compute. reflexivity.
  - destruct og as [g |]; [destruct w as [| cw] |];
      try (rewrite edit_needs_triple_and_width by (cells; auto);
           apply well_formed_intro; assumption).
    destruct (edit_keeps_spacing e g err cw modal (Hle g eq_refl))
      as [[m Hm] | [g' [Hg' Hs']]].
    + rewrite Hm. apply well_formed_intro; eauto; discriminate.
    + rewrite Hg'. apply well_formed_intro; auto; try discriminate.
      intros g0 Hg0. injection Hg0 as <-. exact Hs'.
  - unfold setShowModal. cells.
    apply well_formed_intro; auto. discriminate.
Qed.

(** Whatever the user does, starting from the freshly mounted component:
    the message is empty or one of the four error messages, a message or
    an open dialog means a triple is held, and the spacing of a held
    triple is never [<= 0], so it is positive unless it is NaN. *)
Theorem reachable_states_are_well_formed :
  forall evs : list Event, well_formed (after evs).
Proof.
  unfold after.
  assert (Hgen : forall evs st, well_formed st -> well_formed (fold_left handle evs st)).
  { induction evs as [| ev evs IH]; intros st Hst; cbn [fold_left]; auto.
    apply IH. apply handle_well_formed. exact Hst. }
  intros evs. apply Hgen.
  repeat split; cbn; auto; try discriminate; try congruence.
Qed.

(** A negative number of magnitude below 0.05 rounds to [-0]. *)
Lemma round1_small_negative (m : positive) (e : Z) :
  (e < 0)%Z -> (20 * Zpos m < 2 ^ (- e))%Z ->
  round1 (S754_finite true m e) = S754_zero true.
Proof.
  intros He Hm.
  assert (Hp : (0 < 2 ^ (- e))%Z) by (apply Z.pow_pos_nonneg; lia).
  unfold round1, toFixed1, at_least_1e21, tenths, round_half_up.
  replace (0 <=? e)%Z with false by (symmetry; apply Z.leb_gt; exact He).
  replace (10 ^ 21 * 2 ^ (- e) <=? Zpos m)%Z with false
    by (symmetry; apply Z.leb_gt; nia).
  rewrite Z.div_small.
  - reflexivity.
  - rewrite Z.pow_add_r by lia. change (2 ^ 1)%Z with 2%Z. lia.
Qed.

(** The negativity check is made on the rounded overhang.  When
    [overallWidth - girders * spacing] is negative with magnitude below
    0.05, so that the girders overrun the deck, [updateFromSpacing]
    accepts the spacing and stores the overhang [-0]. *)
Theorem slightly_negative_overhang_is_accepted :
  forall (g : Geometry) (err : string) (modal : bool) (cw s : number)
         (m : positive) (e : Z),
    let W := cw + lit_5 in
    let n := Math_round ((W - overhang g) / s) in
    (s <=? lit_0) || (s >=? W) = false ->
    W - n * s = S754_finite true m e ->
    (e < 0)%Z -> (20 * Zpos m < 2 ^ (- e))%Z ->
    updateFromSpacing s (mkState (Some g) err (Num cw) modal)
      = mkState (Some (mkGeometry s n (S754_zero true))) "" (Num cw) modal.
Proof.
  intros g err modal cw s m e W n Hguard Hraw He Hm. subst W n.
  unfold updateFromSpacing. cells.
  rewrite Hguard, Hraw, (round1_small_negative m e He Hm).
  reflexivity.
Qed.

Lemma slightly_negative_overhang_is_accepted_witness :
  updateFromSpacing (dec 2505 1000)
    (mkState (Some (mkGeometry (dec 25 10) (of_Z 5) (of_Z 0))) ""
       (Num (dec 75 10)) true)
  = mkState (Some (mkGeometry (dec 2505 1000) (of_Z 5) (S754_zero true))) ""
      (Num (dec 75 10)) true.
Proof.
  apply (slightly_negative_overhang_is_accepted
           (mkGeometry (dec 25 10) (of_Z 5) (of_Z 0)) "" true
           (dec 75 10) (dec 2505 1000) 7205759403792384 (-58)).
  - vm_compute; reflexivity.
  - vm_compute; reflexivity.
  - reflexivity.
  - vm_compute; reflexivity.
Defined.






(** Division by a girder count of zero is not caught.  When the held
    triple has girders [+0] and the overhang is accepted with
    [overallWidth - overhang] positive, [updateFromOverhang] stores an
    infinite spacing and clears the message. *)
Theorem zero_girders_give_infinite_spacing :
  forall (g : Geometry) (err : string) (modal : bool) (cw v : number)
         (m : positive) (e : Z),
    let W := cw + lit_5 in
    girders g = S754_zero false ->
    (v <? lit_0) || (v >=? W) = false ->
    W - v = S754_finite false m e ->
    updateFromOverhang v (mkState (Some g) err (Num cw) modal)
      = mkState (Some (mkGeometry Infinity (S754_zero false) v)) ""
          (Num cw) modal.
Proof.
  intros g err modal cw v m e W Hg Hguard Hraw. subst W.
  unfold updateFromOverhang. cells.
  rewrite Hguard, Hraw, Hg. reflexivity.
Qed.

Lemma zero_girders_give_infinite_spacing_witness :
  geometry one_then_wide = Some (mkGeometry (of_Z 6) (of_Z 0) (dec 125 10))
  /\ updateFromOverhang (of_Z 1)
       (mkState (Some (mkGeometry (of_Z 6) (of_Z 0) (dec 125 10))) ""
          (Num (dec 75 10)) true)
     = mkState (Some (mkGeometry Infinity (S754_zero false) (of_Z 1))) ""
         (Num (dec 75 10)) true.
Proof.
  split; [vm_compute; reflexivity |].
  apply (zero_girders_give_infinite_spacing
           (mkGeometry (of_Z 6) (of_Z 0) (dec 125 10)) "" true
           (dec 75 10) (of_Z 1) 6473924464345088 (-49)).
  - reflexivity.
  - vm_compute; reflexivity.
  - vm_compute; reflexivity.
Defined.

End Composition.

(* ================================================================== *)
(** ** What the validators accept *)
(* ================================================================== *)

Section Validators.

Import JS Validation.
Open Scope js_scope.

Lemma le_excludes_gt (x y : number) : le x y = true -> lt y x = false.
Proof.
  unfold lt, le, SFltb, SFleb.
  destruct (SFcompare x y) as [c |] eqn:Hc; [| discriminate].
  rewrite (SFcompare_swap _ _ _ Hc). destruct c; cbn; congruence.
Qed.

Lemma NaN_is_unordered (x y : number) :
  is_nan x = true -> lt x y = false /\ lt y x = false /\ le x y = false /\ le y x = false.
Proof. destruct x; try discriminate. destruct y; repeat split. Qed.

Lemma is_nan_eq (x : number) : is_nan x = true <-> x = NaN.
Proof. destruct x; split; intros H; try discriminate H; reflexivity. Qed.

(** [validateSpan] returns the empty string exactly for a blank field,
    for NaN, and for a number with 20 <= span <= 45. *)
Theorem validateSpan_accepts :
  forall v : Solver.NumberOrBlank,
    validateSpan v = ""%string
    <-> v = Solver.Blank
        \/ exists x, v = Solver.Num x
             /\ (is_nan x = true
                 \/ (lit_20 <=? x) = true /\ (x <=? lit_45) = true).
Proof.
  intros [| x]; cbn [validateSpan].
  - split; auto.
  - unfold gt.
    match goal with |- context [if ?c then _ else _] => destruct c eqn:Hg end;
      change (SFltb lit_45 x) with (lit_45 <? x) in Hg.
    + split; [discriminate |].
      intros [H | [y [Hy [Hn | [H1 H2]]]]]; try discriminate H;
        injection Hy as <-.
      * destruct (NaN_is_unordered x lit_20 Hn) as (A & _).
        destruct (NaN_is_unordered x lit_45 Hn) as (_ & B & _).
        rewrite A, B in Hg. discriminate Hg.
      * rewrite (le_excludes_gt _ _ H1), (le_excludes_gt _ _ H2) in Hg.
        discriminate Hg.
    + split; [| reflexivity]. intros _. right. exists x. split; [reflexivity |].
      apply orb_false_iff in Hg. destruct Hg as [H1 H2].
      destruct (is_nan x) eqn:Hn; [left; reflexivity | right].
      split; apply not_lt_is_ge; auto.
Qed.

(** [validateCarriagewayWidth] returns the empty string exactly for a
    blank field, for NaN, and for a number with 4.25 <= width; there is
    no upper limit. *)
Theorem validateCarriagewayWidth_accepts :
  forall v : Solver.NumberOrBlank,
    validateCarriagewayWidth v = ""%string
    <-> v = Solver.Blank
        \/ exists x, v = Solver.Num x
             /\ (is_nan x = true \/ (lit_4_25 <=? x) = true).
Proof.
  intros [| x]; cbn [validateCarriagewayWidth].
  - split; auto.
  - destruct (x <? lit_4_25) eqn:Hg.
    + split; [discriminate |].
      intros [H | [y [Hy [Hn | H1]]]]; try discriminate H; injection Hy as <-.
      * destruct (NaN_is_unordered x lit_4_25 Hn) as (A & _). congruence.
      * rewrite (le_excludes_gt _ _ H1) in Hg. discriminate Hg.
    + split; [| reflexivity]. intros _. right. exists x. split; [reflexivity |].
      destruct (is_nan x) eqn:Hn; [left; reflexivity | right].
      apply not_lt_is_ge; auto.
Qed.

(** [validateSkewAngle] does not see the sign of the angle. *)
Theorem validateSkewAngle_is_even :
  forall x : number,
    validateSkewAngle (Solver.Num (neg x)) = validateSkewAngle (Solver.Num x).
Proof.
  intros x. cbn [validateSkewAngle]. unfold Math_abs, neg.
  replace (SFabs (SFopp x)) with (SFabs x) by (destruct x; reflexivity).
  reflexivity.
Qed.

(** [validateSkewAngle] reports an error exactly for NaN, a warning
    exactly for a number whose magnitude is above 15, and never both. *)
Theorem validateSkewAngle_outcomes :
  forall v : Solver.NumberOrBlank,
    (error (validateSkewAngle v) <> ""%string <-> v = Solver.Num NaN)
    /\ (warning (validateSkewAngle v) <> ""%string
        <-> exists x, v = Solver.Num x /\ (lit_15 <? Math_abs x) = true)
    /\ (error (validateSkewAngle v) = ""%string
        \/ warning (validateSkewAngle v) = ""%string).
Proof.
  intros [| x]; cbn [validateSkewAngle error warning].
  - repeat split; try (intros H; congruence); auto.
    intros [y [Hy _]]. discriminate Hy.
  - unfold Number_isNaN.
    destruct (is_nan (Math_abs x)) eqn:Hn; cbn [error warning].
    + assert (Hx : x = NaN) by (destruct x; try discriminate Hn; reflexivity).
      subst x. repeat split; auto; try discriminate; try congruence.
      intros [y [Hy Hlt]]. injection Hy as <-. discriminate Hlt.
    + destruct (Math_abs x <=? lit_15) eqn:Hle; cbn [error warning].
      * repeat split; auto; try congruence.
        -- intros H. injection H as ->. discriminate Hn.
        -- intros [y [Hy Hlt]]. injection Hy as <-.
           rewrite (le_excludes_gt _ _ Hle) in Hlt. discriminate Hlt.
      * repeat split; auto; try congruence; try discriminate.
        -- intros H. injection H as ->. discriminate Hn.
        -- intros _. exists x. split; [reflexivity |].
           apply not_le_is_gt; auto.
Qed.

Lemma skew_error_only_for_NaN (v : Solver.NumberOrBlank) :
  error (validateSkewAngle v) <> ""%string <-> v = Solver.Num NaN.
Proof.
  destruct v as [| x]; cbn [validateSkewAngle error].
  - split; [congruence | discriminate].
  - unfold Number_isNaN, Math_abs.
    destruct x; cbn [SFabs is_nan error];
      try (destruct (_ <=? lit_15); cbn [error]);
      split; intros H; try congruence; try discriminate H; try reflexivity.
Qed.

Lemma truthy_spec (s : string) : truthy s = true <-> s <> ""%string.
Proof.
  unfold truthy. destruct (String.eqb_spec s ""); cbn; split; congruence.
Qed.

(** Once the three fields have lost focus, the "Validate & Proceed"
    button is disabled exactly when the span is a number below 20 or
    above 45, or the width is a number below 4.25, or the skew angle is
    NaN, or the structure type is "Other".  A skew warning does not
    disable it. *)
Theorem blocking_after_blur :
  forall d : Details,
    hasBlockingErrors (handleSkewBlur (handleCarriagewayBlur (handleSpanBlur d)))
      = true
    <-> span_out_of_range (span d)
        \/ width_too_small (carriagewayWidth d)
        \/ skew_is_NaN (skewAngle d)
        \/ structureType d = Other.
Proof.
  intros d. unfold hasBlockingErrors, handleSkewBlur, handleCarriagewayBlur,
    handleSpanBlur.
  cbn [structureType span carriagewayWidth skewAngle spanError
       carriagewayError skewError skewWarning].
  rewrite !orb_true_iff, !truthy_spec.
  assert (Hspan : validateSpan (span d) <> ""%string <-> span_out_of_range (span d)).
  { unfold span_out_of_range. destruct (span d) as [| x]; cbn [validateSpan].
    - split; [congruence | intros [y [Hy _]]; discriminate Hy].
    - unfold gt.
    match goal with |- context [if ?c then _ else _] => destruct c eqn:Hg end;
      change (SFltb lit_45 x) with (lit_45 <? x) in Hg.
      + split; [| discriminate]. intros _. exists x. split; [reflexivity |].
        apply orb_true_iff in Hg. exact Hg.
      + split; [congruence |]. intros [y [Hy Hr]]. injection Hy as <-.
        apply orb_false_iff in Hg. destruct Hg, Hr; congruence. }
  assert (Hwidth : validateCarriagewayWidth (carriagewayWidth d) <> ""%string
                   <-> width_too_small (carriagewayWidth d)).
  { unfold width_too_small.
    destruct (carriagewayWidth d) as [| x]; cbn [validateCarriagewayWidth].
    - split; [congruence | intros [y [Hy _]]; discriminate Hy].
    - destruct (x <? lit_4_25) eqn:Hg.
      + split; [| discriminate]. intros _. exists x. auto.
      + split; [congruence |]. intros [y [Hy Hr]]. injection Hy as <-. congruence. }
  pose proof (skew_error_only_for_NaN (skewAngle d)) as Hskew.
  rewrite Hspan, Hwidth, Hskew. unfold skew_is_NaN.
  destruct (structureType d); split; intros H;
    repeat match goal with H : _ \/ _ |- _ => destruct H end;
    auto; try discriminate; try congruence.
Qed.

End Validators.

(* ================================================================== *)
(** ** The query as a function of the form's history *)
(* ================================================================== *)

Section QueryHistory.

Import JS CustomParams History.



(** A field whose last text is "-0" is posted as 0, and one whose text is
    empty likewise. *)
Lemma minus_zero_is_posted_as_zero :
  wind_speed
    (fetchClosestLocation
       (params (run [TypeWindSpeed (Numeral (S754_zero true))])))
  = Some (S754_zero false).
Proof. reflexivity. Qed.

End QueryHistory.

(* ================================================================== *)
(** ** The base URL *)
(* ================================================================== *)

Section BaseUrl.

Import Api.
Local Open Scope string_scope.

Lemma append_slash_not_empty (s : string) : String.eqb (s ++ "/") "" = false.
Proof. destruct s; reflexivity. Qed.

Lemma append_slash_differs (t : string) : t <> t ++ "/".
Proof.
  induction t as [| c t IH]; cbn; [discriminate |].
  intros H. injection H as H. exact (IH H).
Qed.

Lemma strip_slash (s : string) : normalizeBaseUrl (s ++ "/") = s.
Proof.
  induction s as [| c s IH]; [reflexivity |].
  cbn [append normalizeBaseUrl].
  rewrite append_slash_not_empty, andb_false_r, IH. reflexivity.
Qed.

(** [normalizeBaseUrl] removes exactly one trailing slash: whatever [s]
    is, the normal form of [s/] is [s], so that of [s//] is [s/]. *)
Theorem normalizeBaseUrl_strips_one_slash :
  forall s : string,
    normalizeBaseUrl (s ++ "/") = s
    /\ normalizeBaseUrl (s ++ "//") = s ++ "/".
Proof.
  intros s. split; [apply strip_slash |].
  replace (s ++ "//") with ((s ++ "/") ++ "/"); [apply strip_slash |].
  induction s as [| c s IH]; [reflexivity |]. cbn. rewrite IH. reflexivity.
Qed.

Lemma normalizeBaseUrl_keeps (s : string) :
  ~ ends_with_slash s -> normalizeBaseUrl s = s.
Proof.
  induction s as [| c s IH]; intros Hno; [reflexivity |].
  cbn [normalizeBaseUrl].
  destruct (Ascii.eqb c "/" && String.eqb s "")%bool eqn:Hc.
  - apply andb_true_iff in Hc. destruct Hc as [Hc Hs].
    apply Ascii.eqb_eq in Hc. apply String.eqb_eq in Hs. subst.
    exfalso. apply Hno. exists "". reflexivity.
  - f_equal. apply IH. intros [t Ht]. apply Hno.
    exists (String c t). cbn. rewrite Ht. reflexivity.
Qed.

Lemma unchanged_means_no_slash (s : string) :
  normalizeBaseUrl s = s -> ~ ends_with_slash s.
Proof.
  intros Hfix [t Ht]. subst s.
  rewrite (strip_slash t) in Hfix.
  exact (append_slash_differs t Hfix).
Qed.

(** [normalizeBaseUrl] leaves a string as it is exactly when the string
    does not end with a slash. *)
Theorem normalizeBaseUrl_fixed_points :
  forall s : string, normalizeBaseUrl s = s <-> ~ ends_with_slash s.
Proof.
  intros s. split; [apply unchanged_means_no_slash | apply normalizeBaseUrl_keeps].
Qed.

Lemma append_not_empty (s t : string) : t <> "" -> s ++ t <> "".
Proof. destruct s; cbn; [auto | discriminate]. Qed.

Lemma normalizeBaseUrl_app (s t : string) :
  t <> "" -> normalizeBaseUrl (s ++ t) = s ++ normalizeBaseUrl t.
Proof.
  intros Ht. induction s as [| c s IH]; [reflexivity |].
  cbn [append normalizeBaseUrl].
  replace (String.eqb (s ++ t) "") with false.
  - rewrite andb_false_r, IH. reflexivity.
  - symmetry. destruct s; [destruct t; [contradiction | reflexivity] | reflexivity].
Qed.

Lemma append_associative (a b c : string) : (a ++ b) ++ c = a ++ b ++ c.
Proof. induction a as [| x a IH]; cbn; [reflexivity | now rewrite IH]. Qed.

Lemma default_is_normalized (window : option WindowLocation) :
  normalizeBaseUrl (getDefaultBaseUrl window) = getDefaultBaseUrl window.
Proof.
  destruct window as [[p h] |]; [| reflexivity].
  unfold getDefaultBaseUrl. cbn [protocol hostname].
  set (P := if String.eqb p "https:" then "https:" else "http:").
  set (H := if String.eqb h "" then "localhost" else h).
  rewrite (normalizeBaseUrl_app P), (normalizeBaseUrl_app "//"),
    (normalizeBaseUrl_app H);
    [reflexivity | discriminate | |];
    repeat apply append_not_empty; discriminate.
Qed.

(** With no base URL configured, [BASE_URL] is the default untouched by
    normalization: on a page with protocol [p] and host name [h] it is
    the scheme, [https] exactly when [p] is ["https:"] and [http]
    otherwise, then [://], then [h] itself or [localhost] when [h] is
    empty, then [:8000/api]; without a window it is
    [http://localhost:8000/api]; and [getStates] fetches that address
    followed by [/states/]. *)
Theorem default_base_url_shape :
  (forall p h : string,
      BASE_URL None (Some (mkLocation p h)) =
        (if String.eqb p "https:" then "https" else "http") ++ "://"
        ++ (if String.eqb h "" then "localhost" else h) ++ ":8000/api")
  /\ BASE_URL None None = "http://localhost:8000/api"
  /\ (forall p h : string,
        getStates_url None (Some (mkLocation p h)) =
          (if String.eqb p "https:" then "https" else "http") ++ "://"
          ++ (if String.eqb h "" then "localhost" else h)
          ++ ":8000/api/states/").
Proof.
  assert (Hbase : forall p h : string,
      BASE_URL None (Some (mkLocation p h)) =
        (if String.eqb p "https:" then "https" else "http") ++ "://"
        ++ (if String.eqb h "" then "localhost" else h) ++ ":8000/api").
  { intros p h. unfold BASE_URL. rewrite default_is_normalized.
    unfold getDefaultBaseUrl. cbn [protocol hostname].
    destruct (String.eqb p "https:"); reflexivity. }
  split; [exact Hbase |]. split; [reflexivity |].
  intros p h. unfold getStates_url. rewrite Hbase.
  rewrite !append_associative. reflexivity.
Qed.

(** A configured base URL gives the same request address with and
    without one trailing slash. *)
Theorem trailing_slash_is_irrelevant :
  forall (url : string) (window : option WindowLocation),
    ~ ends_with_slash url ->
    getStates_url (Some (url ++ "/")) window = getStates_url (Some url) window
    /\ getStates_url (Some url) window = url ++ "/states/".
Proof.
  intros url window Hno. unfold getStates_url, BASE_URL.
  rewrite strip_slash, (normalizeBaseUrl_keeps url Hno).
  split; reflexivity.
Qed.

Lemma trailing_slash_is_irrelevant_witness :
  getStates_url (Some "http://example.org/api/") None
    = "http://example.org/api/states/".
Proof.
  assert (Hno : ~ ends_with_slash "http://example.org/api").
  { apply unchanged_means_no_slash. reflexivity. }
  destruct (trailing_slash_is_irrelevant "http://example.org/api" None Hno)
    as [H1 H2].
  exact (eq_trans H1 H2).
Defined.

End BaseUrl.
